(** * consulkv-parser: binding Consul KV values into tagged struct fields

    A shallow embedding of package [consulparser] (the parser source and
    [error.go]) and the properties of its specification.

    The Go code walks a target through [reflect].  Here a destination is a
    pair of a static type ([GoType]) and its current content ([Value]); a
    function that mutates its destination in Go returns the new content of
    that destination, together with the error it returns (or the run-time
    panic it raises) and the trace of external effects (store lookups and
    allocations) in the order they happen.

    Scope of the type universe: the predeclared scalar types, [string],
    the empty interface, [time.Time], struct types, pointer types and the
    kinds the parser does not handle.  Defined types over scalars
    ([type Name string]) and interfaces with methods are not represented.
    The parser never follows a pointer it finds in a field (it overwrites
    the field with a fresh cell or leaves it), so the content of a
    destination is a tree.  The answers of the store are a function of the
    key: they do not change while a call runs. *)

From Stdlib Require Import ZArith String Ascii List Bool Floats Lia.
Import ListNotations.
Set Warnings "-register-all".
Local Open Scope string_scope.
Local Open Scope list_scope.
Local Open Scope Z_scope.

(** ** Types as [reflect] sees them *)

(** [reflect.Kind], all 27 of them. *)
Module reflect.
Inductive Kind :=
| Invalid | Bool
| Int | Int8 | Int16 | Int32 | Int64
| Uint | Uint8 | Uint16 | Uint32 | Uint64 | Uintptr
| Float32 | Float64 | Complex64 | Complex128
| Array | Chan | Func | Interface | Map | Ptr | Slice | String | Struct
| UnsafePointer.
End reflect.

Inductive IntKind := KInt | KInt8 | KInt16 | KInt32 | KInt64.
Inductive UintKind := KUint | KUint8 | KUint16 | KUint32 | KUint64 | KUintptr.
Inductive FloatKind := KFloat32 | KFloat64.
(** The kinds that fall to the [default] branch of both switches. *)
Inductive OtherKind :=
| KComplex64 | KComplex128 | KArray | KChan | KFunc | KMap | KSlice
| KUnsafePointer.

(** A struct field as [parse] reads it: whether [Value.Field(i).CanSet()]
    holds, and [Type.Field(i).Tag.Get(keyTag)].  Every struct that [parse]
    visits is addressable (it is reached through a pointer or allocated by
    [reflect.New]) and is never reached through an unexported field, so
    [CanSet] is true exactly for the exported fields. *)
Inductive GoType :=
| TBool
| TInt (k : IntKind)
| TUint (k : UintKind)
| TFloat (k : FloatKind)
| TString
| TInterface
| TTime
| TStruct (fields : list StructField)
| TPtr (elem : GoType)
| TOther (k : OtherKind)
with StructField :=
| mkField (fieldName : string) (canSet : bool) (consulKey : string)
          (ftype : GoType).

Definition fieldCanSet (f : StructField) : bool :=
  match f with mkField _ c _ _ => c end.
Definition fieldTag (f : StructField) : string :=
  match f with mkField _ _ t _ => t end.
Definition fieldType (f : StructField) : GoType :=
  match f with mkField _ _ _ t => t end.

Definition kindOfInt (k : IntKind) : reflect.Kind :=
  match k with
  | KInt => reflect.Int
  | KInt8 => reflect.Int8
  | KInt16 => reflect.Int16
  | KInt32 => reflect.Int32
  | KInt64 => reflect.Int64
  end.
Definition kindOfUint (k : UintKind) : reflect.Kind :=
  match k with
  | KUint => reflect.Uint
  | KUint8 => reflect.Uint8
  | KUint16 => reflect.Uint16
  | KUint32 => reflect.Uint32
  | KUint64 => reflect.Uint64
  | KUintptr => reflect.Uintptr
  end.
Definition kindOfFloat (k : FloatKind) : reflect.Kind :=
  match k with
  | KFloat32 => reflect.Float32
  | KFloat64 => reflect.Float64
  end.
Definition kindOfOther (k : OtherKind) : reflect.Kind :=
  match k with
  | KComplex64 => reflect.Complex64
  | KComplex128 => reflect.Complex128
  | KArray => reflect.Array
  | KChan => reflect.Chan
  | KFunc => reflect.Func
  | KMap => reflect.Map
  | KSlice => reflect.Slice
  | KUnsafePointer => reflect.UnsafePointer
  end.

(** [Type.Kind()]. *)
Definition kindOf (t : GoType) : reflect.Kind :=
  match t with
  | TBool => reflect.Bool
  | TInt k => kindOfInt k
  | TUint k => kindOfUint k
  | TFloat k => kindOfFloat k
  | TString => reflect.String
  | TInterface => reflect.Interface
  | TTime => reflect.Struct
  | TStruct _ => reflect.Struct
  | TPtr _ => reflect.Ptr
  | TOther k => kindOfOther k
  end.

Definition isPtr (t : GoType) : bool :=
  match t with TPtr _ => true | _ => false end.

(** [n] pointer layers around [t]: [T], [*T], [**T], ... *)
Fixpoint ptrTo (n : nat) (t : GoType) : GoType :=
  match n with
  | O => t
  | S n' => TPtr (ptrTo n' t)
  end.

(** ** Values *)

(** [time.Time], as the instant it denotes (nanoseconds since the zero
    time, January 1, year 1, 00:00:00 UTC). *)
Record Time := mkTime { instant : Z }.

Inductive Value :=
| VBool (b : bool)
| VInt (n : Z)
| VUint (n : Z)
| VFloat (x : float)
| VString (s : string)
| VNilIface
| VIface (dyn : Value)
| VTime (t : Time)
| VStruct (fields : list Value)
| VNilPtr
| VPtr (pointee : Value)
| VOther (k : OtherKind).

(** The zero value of a type, what [reflect.New] points at. *)
Fixpoint zeroValue (t : GoType) : Value :=
  match t with
  | TBool => VBool false
  | TInt _ => VInt 0
  | TUint _ => VUint 0
  | TFloat _ => VFloat PrimFloat.zero
  | TString => VString EmptyString
  | TInterface => VNilIface
  | TTime => VTime (mkTime 0)
  | TStruct fs =>
      VStruct
        (map (fun f => match f with mkField _ _ _ ft => zeroValue ft end) fs)
  | TPtr _ => VNilPtr
  | TOther k => VOther k
  end.

(** [n] pointer cells around [v]. *)
Fixpoint ptrChain (n : nat) (v : Value) : Value :=
  match n with
  | O => v
  | S n' => VPtr (ptrChain n' v)
  end.

(** ** Errors, panics and outcomes *)

Inductive NumCause := ErrSyntax | ErrRange.

(** The error values that can reach a caller.  The first four are the
    variables of [error.go]; [InvalidConfiguration] is the value behind
    [ErrEmptyLayout] below; [NumError] is [*strconv.NumError],
    [TimeParseError] is [*time.ParseError], [ConsulError] is whatever
    [api.KV.Get] returns. *)
Inductive error :=
| ErrNilClient
| ErrNonPointerType
| ErrUnhandledKind
| ErrOverflowSet
| InvalidConfiguration
| NumError (fn : string) (num : string) (cause : NumCause)
| TimeParseError (layout : string) (value : string)
| ConsulError (msg : string).

(** Run-time panics: a nil pointer dereference, and [reflect.Value.Set]
    given a value whose type is not assignable to the destination's. *)
Inductive panic :=
| NilPointerDereference
| SetNotAssignable (src : GoType) (dst : GoType).

(** Modelled from the spec: [SetTimeLayout] returns [ErrEmptyLayout], a
    package variable whose declaration is not in [error.go].  The spec
    calls it a dedicated error of the kind "invalid configuration: empty
    temporal layout supplied to the setter", so it is an error value of its
    own. *)
Definition ErrEmptyLayout : error := InvalidConfiguration.

(** How a call ends: [err == nil], [err != nil], or a panic. *)
Inductive status :=
| Done
| Failed (e : error)
| Panicked (p : panic).

(** External effects, in program order. *)
Inductive Event :=
| EvGet (key : string)    (* parser.consulKV.Get(key, nil) *)
| EvAlloc (t : GoType).   (* a fresh cell: reflect.New(t), or &timeVal *)

Record Outcome := mkOutcome {
  dest : Value;           (* content of the destination after the call *)
  err : status;
  trace : list Event
}.

Record StructOutcome := mkStructOutcome {
  fieldValues : list Value;
  structErr : status;
  structTrace : list Event
}.

Inductive res (A : Type) :=
| ok (a : A)
| fail (e : error).
Arguments ok {A} a.
Arguments fail {A} e.

Definition isEmpty (s : string) : bool :=
  match s with EmptyString => true | String _ _ => false end.

(** ** [strconv] *)

Definition digitOf (c : ascii) : option Z :=
  let n := Z.of_N (N_of_ascii c) in
  if (48 <=? n) && (n <=? 57) then Some (n - 48) else None.

(** The digit loop of [strconv.ParseUint(s, 10, 64)]: the first byte that
    is not a decimal digit is a syntax error, the first step that leaves
    64 bits a range error. *)
Fixpoint parseDigits (s : string) (n : Z) : Z + NumCause :=
  match s with
  | EmptyString => inl n
  | String c rest =>
      match digitOf c with
      | None => inr ErrSyntax
      | Some d =>
          if 2 ^ 64 - 1 <? n * 10 + d then inr ErrRange
          else parseDigits rest (n * 10 + d)
      end
  end.

(** [strconv.ParseUint(s, 10, 64)]. *)
Definition ParseUint (s : string) : res Z :=
  if isEmpty s then fail (NumError "ParseUint" s ErrSyntax)
  else match parseDigits s 0 with
       | inl n => ok n
       | inr c => fail (NumError "ParseUint" s c)
       end.

(** [strconv.ParseInt(s, 10, 64)]: one optional sign, then the unsigned
    parse; the cutoff is [2^63]. *)
Definition ParseInt (s : string) : res Z :=
  match s with
  | EmptyString => fail (NumError "ParseInt" s ErrSyntax)
  | String c rest =>
      let neg := Ascii.eqb c "-" in
      let digits := if Ascii.eqb c "+" || neg then rest else s in
      if isEmpty digits then fail (NumError "ParseInt" s ErrSyntax)
      else match parseDigits digits 0 with
           | inr c => fail (NumError "ParseInt" s c)
           | inl un =>
               if negb neg && (2 ^ 63 <=? un)
               then fail (NumError "ParseInt" s ErrRange)
               else if neg && (2 ^ 63 <? un)
               then fail (NumError "ParseInt" s ErrRange)
               else ok (if neg then - un else un)
           end
  end.

(** [strconv.ParseBool]. *)
Definition ParseBool (s : string) : res bool :=
  if existsb (String.eqb s) ["1"; "t"; "T"; "true"; "TRUE"; "True"]
  then ok true
  else if existsb (String.eqb s) ["0"; "f"; "F"; "false"; "FALSE"; "False"]
  then ok false
  else fail (NumError "ParseBool" s ErrSyntax).

(** ** [reflect]: sizes, overflow checks and stores *)

(** What the platform and the libraries outside this package decide:
    the size of [int], [uint] and [uintptr], [strconv.ParseFloat(s, 64)]
    and [time.Parse(layout, value)]. *)
Record Runtime := mkRuntime {
  wordBits : Z;
  strconv_ParseFloat : string -> res float;
  time_Parse : string -> string -> res Time
}.

Definition intBits (rt : Runtime) (k : IntKind) : Z :=
  match k with
  | KInt => wordBits rt | KInt8 => 8 | KInt16 => 16 | KInt32 => 32
  | KInt64 => 64
  end.
Definition uintBits (rt : Runtime) (k : UintKind) : Z :=
  match k with
  | KUint => wordBits rt | KUint8 => 8 | KUint16 => 16 | KUint32 => 32
  | KUint64 => 64 | KUintptr => wordBits rt
  end.

(** [Value.OverflowInt]: [x] is not representable in [bits] signed bits. *)
Definition OverflowInt (bits : Z) (x : Z) : bool :=
  negb ((- 2 ^ (bits - 1) <=? x) && (x <? 2 ^ (bits - 1))).
(** [Value.OverflowUint]. *)
Definition OverflowUint (bits : Z) (x : Z) : bool :=
  negb (x <? 2 ^ bits).

Definition maxFloat32 : float := 0x1.fffffep+127%float.
Definition maxFloat64 : float := 0x1.fffffffffffffp+1023%float.

(** [reflect.overflowFloat32]. *)
Definition overflowFloat32 (x : float) : bool :=
  let x := if (x <? 0)%float then (- x)%float else x in
  ((maxFloat32 <? x) && (x <=? maxFloat64))%float.
(** [Value.OverflowFloat]. *)
Definition OverflowFloat (k : FloatKind) (x : float) : bool :=
  match k with
  | KFloat32 => overflowFloat32 x
  | KFloat64 => false
  end.

(** The conversions [SetInt], [SetUint] and [SetFloat] apply when they
    store into a narrower destination: [int8(x)], [uint8(x)],
    [float32(x)]. *)
Definition wrapInt (bits : Z) (x : Z) : Z :=
  let m := x mod 2 ^ bits in
  if 2 ^ (bits - 1) <=? m then m - 2 ^ bits else m.
Definition wrapUint (bits : Z) (x : Z) : Z := x mod 2 ^ bits.
Definition toFloat32 (x : float) : float :=
  match Prim2SF x with
  | S754_finite s m e =>
      SF2Prim (binary_normalize 24 128 (cond_Zopp s (Zpos m)) e s)
  | _ => x
  end.
Definition SetFloat (k : FloatKind) (x : float) : float :=
  match k with
  | KFloat32 => toFloat32 x
  | KFloat64 => x
  end.

(** ** The parser *)

(** What [api.KV.Get(key, nil)] hands back: [(nil, nil, err)] on a failed
    request, [(nil, meta, nil)] when the store has no entry for the key,
    [(pair, meta, nil)] otherwise. *)
Inductive KVReply :=
| GetErr (e : error)
| GetAbsent
| GetPair (value : string).

(** [Parser]: its one field, the KV client, as the replies it gives. *)
Record Parser := mkParser { consulKV : string -> KVReply }.

(** [time.RFC3339], the initial value of the package variable
    [timeLayout]. *)
Definition RFC3339 : string := "2006-01-02T15:04:05Z07:00".

(** [reflect.Value.Set] in [assignPointer] stores a [string], an [int64],
    a [uint64], a [float64] or a [bool] into a fresh cell of the pointee
    type, and panics unless the types agree (or the cell is an
    [interface{}]). *)
Definition assignableInt64 (k : IntKind) : bool :=
  match k with KInt64 => true | _ => false end.
Definition assignableUint64 (k : UintKind) : bool :=
  match k with KUint64 => true | _ => false end.
Definition assignableFloat64 (k : FloatKind) : bool :=
  match k with KFloat64 => true | _ => false end.

Section Engine.

Variable rt : Runtime.
Variable parser : Parser.
(** The package variable [timeLayout] at the time of the call. *)
Variable timeLayout : string.

(** [getValue]: the value, how the call ends, and its lookups.
    [pair.Value] dereferences [pair] without a nil check. *)
Definition getValue (consulKey : string) : string * status * list Event :=
  if isEmpty consulKey then ("", Done, [])
  else match consulKV parser consulKey with
       | GetErr e => ("", Failed e, [EvGet consulKey])
       | GetAbsent => ("", Panicked NilPointerDereference, [EvGet consulKey])
       | GetPair v => (v, Done, [EvGet consulKey])
       end.

(** A plain [return] with [err == nil] and nothing written. *)
Definition untouched (cur : Value) : Outcome := mkOutcome cur Done [].

(** The loop of [parse], over the fields in declaration order with their
    current contents, given the [assign] to call on each. *)
Definition parseWith (assign : GoType -> Value -> string -> Outcome) :=
  fix loop (fs : list StructField) (vs : list Value) : StructOutcome :=
    match fs, vs with
    | f :: fs', v :: vs' =>
        match f with
        | mkField _ settable key ft =>
            if negb settable then
              let r := loop fs' vs' in
              mkStructOutcome (v :: fieldValues r) (structErr r) (structTrace r)
            else
              match getValue key with
              | (value, Done, tr) =>
                  let a := assign ft v value in
                  match err a with
                  | Done =>
                      let r := loop fs' vs' in
                      mkStructOutcome (dest a :: fieldValues r) (structErr r)
                        (tr ++ trace a ++ structTrace r)
                  | e => mkStructOutcome (dest a :: vs') e (tr ++ trace a)
                  end
              | (_, e, tr) => mkStructOutcome (v :: vs') e tr
              end
        end
    | _, _ => mkStructOutcome vs Done []
    end.

(** [assignPointer] on a destination of type [*elem] holding [cur], and
    [assignNonPointer] on a destination of type [t] holding [cur].
    The cell a fresh [reflect.New] of a pointer type points at holds a
    nil pointer. *)
Fixpoint assignPointer (elem : GoType) (cur : Value) (value : string)
  {struct elem} : Outcome :=
  match elem with
  | TPtr elem' =>
      let r := assignPointer elem' VNilPtr value in
      match err r with
      | Done => mkOutcome (VPtr (dest r)) Done (EvAlloc elem :: trace r)
      | e => mkOutcome cur e (EvAlloc elem :: trace r)
      end
  | TTime =>
      if isEmpty value then untouched cur
      else match time_Parse rt timeLayout value with
           | fail e => mkOutcome cur (Failed e) []
           | ok timeVal => mkOutcome (VPtr (VTime timeVal)) Done [EvAlloc TTime]
           end
  | TStruct fs =>
      let r :=
        parseWith
          (fun t v s =>
             match t with
             | TPtr e => assignPointer e v s
             | _ => assignNonPointer t v s
             end)
          fs (map (fun f => zeroValue (fieldType f)) fs) in
      match structErr r with
      | Done =>
          mkOutcome (VPtr (VStruct (fieldValues r))) Done
            (EvAlloc elem :: structTrace r)
      | e => mkOutcome cur e (EvAlloc elem :: structTrace r)
      end
  | TInterface =>
      if isEmpty value then untouched cur
      else mkOutcome (VPtr (VIface (VString value))) Done [EvAlloc elem]
  | TString =>
      if isEmpty value then untouched cur
      else mkOutcome (VPtr (VString value)) Done [EvAlloc elem]
  | TInt k =>
      if isEmpty value then untouched cur
      else match ParseInt value with
           | fail e => mkOutcome cur (Failed e) []
           | ok temp =>
               if OverflowInt (intBits rt k) temp
               then mkOutcome cur (Failed ErrOverflowSet) [EvAlloc elem]
               else if assignableInt64 k
               then mkOutcome (VPtr (VInt temp)) Done [EvAlloc elem]
               else mkOutcome cur
                      (Panicked (SetNotAssignable (TInt KInt64) elem))
                      [EvAlloc elem]
           end
  | TUint k =>
      if isEmpty value then untouched cur
      else match ParseUint value with
           | fail e => mkOutcome cur (Failed e) []
           | ok temp =>
               if OverflowUint (uintBits rt k) temp
               then mkOutcome cur (Failed ErrOverflowSet) [EvAlloc elem]
               else if assignableUint64 k
               then mkOutcome (VPtr (VUint temp)) Done [EvAlloc elem]
               else mkOutcome cur
                      (Panicked (SetNotAssignable (TUint KUint64) elem))
                      [EvAlloc elem]
           end
  | TFloat k =>
      if isEmpty value then untouched cur
      else match strconv_ParseFloat rt value with
           | fail e => mkOutcome cur (Failed e) []
           | ok temp =>
               if OverflowFloat k temp
               then mkOutcome cur (Failed ErrOverflowSet) [EvAlloc elem]
               else if assignableFloat64 k
               then mkOutcome (VPtr (VFloat temp)) Done [EvAlloc elem]
               else mkOutcome cur
                      (Panicked (SetNotAssignable (TFloat KFloat64) elem))
                      [EvAlloc elem]
           end
  | TBool =>
      if isEmpty value then untouched cur
      else match ParseBool value with
           | fail e => mkOutcome cur (Failed e) []
           | ok temp => mkOutcome (VPtr (VBool temp)) Done [EvAlloc elem]
           end
  | TOther _ => mkOutcome cur (Failed ErrUnhandledKind) []
  end

with assignNonPointer (t : GoType) (cur : Value) (value : string)
  {struct t} : Outcome :=
  match t with
  | TTime =>
      if isEmpty value then untouched cur
      else match time_Parse rt timeLayout value with
           | fail e => mkOutcome cur (Failed e) []
           | ok timeVal => mkOutcome (VTime timeVal) Done []
           end
  | TStruct fs =>
      match cur with
      | VStruct vs =>
          let r :=
            parseWith
              (fun t v s =>
                 match t with
                 | TPtr e => assignPointer e v s
                 | _ => assignNonPointer t v s
                 end)
              fs vs in
          mkOutcome (VStruct (fieldValues r)) (structErr r) (structTrace r)
      | _ => untouched cur
      end
  | TInterface =>
      if isEmpty value then untouched cur
      else mkOutcome (VIface (VString value)) Done []
  | TString =>
      if isEmpty value then untouched cur
      else mkOutcome (VString value) Done []
  | TInt k =>
      if isEmpty value then untouched cur
      else match ParseInt value with
           | fail e => mkOutcome cur (Failed e) []
           | ok temp =>
               if OverflowInt (intBits rt k) temp
               then mkOutcome cur (Failed ErrOverflowSet) []
               else mkOutcome (VInt (wrapInt (intBits rt k) temp)) Done []
           end
  | TUint k =>
      if isEmpty value then untouched cur
      else match ParseUint value with
           | fail e => mkOutcome cur (Failed e) []
           | ok temp =>
               if OverflowUint (uintBits rt k) temp
               then mkOutcome cur (Failed ErrOverflowSet) []
               else mkOutcome (VUint (wrapUint (uintBits rt k) temp)) Done []
           end
  | TFloat k =>
      if isEmpty value then untouched cur
      else match strconv_ParseFloat rt value with
           | fail e => mkOutcome cur (Failed e) []
           | ok temp =>
               if OverflowFloat k temp
               then mkOutcome cur (Failed ErrOverflowSet) []
               else mkOutcome (VFloat (SetFloat k temp)) Done []
           end
  | TBool =>
      if isEmpty value then untouched cur
      else match ParseBool value with
           | fail e => mkOutcome cur (Failed e) []
           | ok temp => mkOutcome (VBool temp) Done []
           end
  | TPtr _ => mkOutcome cur (Failed ErrUnhandledKind) []
  | TOther _ => mkOutcome cur (Failed ErrUnhandledKind) []
  end.

(** [assign]: the switch on [val.Kind()]. *)
Definition assign (t : GoType) (cur : Value) (value : string) : Outcome :=
  match t with
  | TPtr elem => assignPointer elem cur value
  | _ => assignNonPointer t cur value
  end.

(** [parse], on the fields of the struct and their contents. *)
Definition parse (fs : list StructField) (vs : list Value) : StructOutcome :=
  parseWith assign fs vs.

(** What the argument [target interface{}] of [Parse] holds: nothing, or
    a value of some dynamic type. *)
Inductive Target :=
| NilTarget
| TargetOf (t : GoType) (v : Value).

(** [reflect.ValueOf(target).Kind()]. *)
Definition targetKind (target : Target) : reflect.Kind :=
  match target with
  | NilTarget => reflect.Invalid
  | TargetOf t _ => kindOf t
  end.

(** [getRecursivePointerVal]: [None] is the zero [reflect.Value] (kind
    [Invalid]) that [Elem()] of a nil pointer gives. *)
Fixpoint getRecursivePointerVal (t : GoType) (v : Value)
  : option (GoType * Value) :=
  match t with
  | TPtr elem =>
      match v with
      | VPtr pointee => getRecursivePointerVal elem pointee
      | _ => None
      end
  | _ => Some (t, v)
  end.

(** The referent found by [getRecursivePointerVal] is written in place:
    the content of the target after the referent became [new]. *)
Fixpoint storeReferent (t : GoType) (v : Value) (new : Value) : Value :=
  match t with
  | TPtr elem =>
      match v with
      | VPtr pointee => VPtr (storeReferent elem pointee new)
      | _ => v
      end
  | _ => new
  end.

(** [Parse].  [assign] on the zero [reflect.Value] takes the [default]
    branch twice. *)
Definition Parse (target : Target) : Outcome :=
  match target with
  | NilTarget => mkOutcome VNilIface (Failed ErrNonPointerType) []
  | TargetOf t v =>
      if negb (isPtr t) then mkOutcome v (Failed ErrNonPointerType) []
      else match getRecursivePointerVal t v with
           | None => mkOutcome v (Failed ErrUnhandledKind) []
           | Some (t', referent) =>
               let r := assign t' referent "" in
               mkOutcome (storeReferent t v (dest r)) (err r) (trace r)
           end
  end.

End Engine.

(** [SetTimeLayout], from the current value of the package variable
    [timeLayout] to its new value and the error returned.  The receiver
    is not used. *)
Definition SetTimeLayout (parser : Parser) (layout : string)
  (timeLayout : string) : string * status :=
  if isEmpty layout then (timeLayout, Failed ErrEmptyLayout)
  else (layout, Done).

(** ** Fixtures: the store and the libraries of the test suite *)

Definition lookupIn (table : list (string * string)) (key : string)
  : option string :=
  match find (fun kv => String.eqb (fst kv) key) table with
  | Some kv => Some (snd kv)
  | None => None
  end.

(** The keys the test suite registers, with their values. *)
Definition testEntries : list (string * string) :=
  [ ("string", "hello"); ("integer", "-10"); ("float", "10.0");
    ("unsignedinteger", "1000"); ("boolean", "true");
    ("time", "2019-02-01T00:00:00Z");
    ("overflowint", "128"); ("overflowuint", "256");
    ("overflowfloat", "2E+308") ].

(** The mocked transport of the test suite: a request for any other key
    fails. *)
Definition mockParser : Parser :=
  mkParser (fun key =>
    match lookupIn testEntries key with
    | Some v => GetPair v
    | None => GetErr (ConsulError "no responder found")
    end).

(** A Consul server holding the same entries: a key it does not hold is
    answered with 404, which [api.KV.Get] turns into a nil pair and a nil
    error. *)
Definition consulParser : Parser :=
  mkParser (fun key =>
    match lookupIn testEntries key with
    | Some v => GetPair v
    | None => GetAbsent
    end).

(** A 64-bit platform, with the few values of [strconv.ParseFloat] and
    [time.Parse] the examples need. *)
Definition testRuntime : Runtime :=
  mkRuntime 64
    (fun s =>
       if String.eqb s "10.0" then ok 10%float
       else if String.eqb s "1e39" then ok 0x1.78287f49c4a1dp+129%float
       else if String.eqb s "2E+308"
       then fail (NumError "ParseFloat" s ErrRange)
       else fail (NumError "ParseFloat" s ErrSyntax))
    (fun layout value =>
       if String.eqb layout RFC3339 && String.eqb value "2019-02-01T00:00:00Z"
       then ok (mkTime 63684576000000000000)
       else fail (TimeParseError layout value)).

(** [time.RFC3339Nano]. *)
Definition RFC3339Nano : string := "2006-01-02T15:04:05.999999999Z07:00".

(** The target of the test "Normal Struct Case". *)
Definition normalStruct : list StructField :=
  [ mkField "String" true "string" TString;
    mkField "Integer" true "integer" (TInt KInt64);
    mkField "Float" true "float" (TFloat KFloat64);
    mkField "UnsignedInteger" true "unsignedinteger" (TUint KUint64);
    mkField "Boolean" true "boolean" TBool;
    mkField "Interface" true "string" TInterface ].

(** The target of the test "Private field". *)
Definition privateFieldStruct : list StructField :=
  mkField "text" false "string" TString :: tl normalStruct.

(** A struct whose second field overflows: [String], then an [int8] bound
    to the key [overflowint], then [Boolean]. *)
Definition overflowStruct : list StructField :=
  [ mkField "String" true "string" TString;
    mkField "OverflowInt" true "overflowint" (TInt KInt8);
    mkField "Boolean" true "boolean" TBool ].

(** The target of the test "Key not found in first field". *)
Definition missingKeyStruct : list StructField :=
  mkField "String" true "string/hello" TString :: tl normalStruct.

(** A struct without keys: an unexported field with a key, and two
    exported fields without one. *)
Definition unkeyedStruct : list StructField :=
  [ mkField "text" false "string" TString;
    mkField "Number" true "" (TInt KInt64);
    mkField "Name" true "" (TPtr TString) ].

Definition zeroFields (fs : list StructField) : list Value :=
  map (fun f => zeroValue (fieldType f)) fs.


(** ** Vocabulary of the specification *)

(** The kinds that take one textual value: text, dynamic slot, signed and
    unsigned integers, floats, booleans and the temporal type. *)
Definition isLeaf (t : GoType) : bool :=
  match t with
  | TBool | TInt _ | TUint _ | TFloat _ | TString | TInterface | TTime => true
  | TStruct _ | TPtr _ | TOther _ => false
  end.

(** The primitive kinds: string, interface, integer, float, boolean. *)
Definition isPrimitive (t : GoType) : bool :=
  match t with
  | TBool | TInt _ | TUint _ | TFloat _ | TString | TInterface => true
  | TTime | TStruct _ | TPtr _ | TOther _ => false
  end.

(** The pointee types whose fresh cell accepts, through
    [reflect.Value.Set], the Go value [assignPointer] builds. *)
Definition isExactLeaf (t : GoType) : bool :=
  match t with
  | TBool | TString | TInterface | TTime => true
  | TInt k => assignableInt64 k
  | TUint k => assignableUint64 k
  | TFloat k => assignableFloat64 k
  | TStruct _ | TPtr _ | TOther _ => false
  end.

(** [value] parses as a number of the family of [t], and the number does
    not fit the width (or precision) of [t]. *)
Definition parsesButOverflows (rt : Runtime) (t : GoType) (value : string)
  : bool :=
  match t with
  | TInt k =>
      match ParseInt value with
      | ok x => OverflowInt (intBits rt k) x
      | fail _ => false
      end
  | TUint k =>
      match ParseUint value with
      | ok x => OverflowUint (uintBits rt k) x
      | fail _ => false
      end
  | TFloat k =>
      match strconv_ParseFloat rt value with
      | ok x => OverflowFloat k x
      | fail _ => false
      end
  | _ => false
  end.

(** What a temporal destination holding [cur] becomes for a non-empty
    [value] under [layout]: directly, and behind one pointer. *)
Definition timeOutcome (rt : Runtime) (layout : string) (cur : Value)
  (value : string) : Outcome :=
  match time_Parse rt layout value with
  | ok timeVal => mkOutcome (VTime timeVal) Done []
  | fail e => mkOutcome cur (Failed e) []
  end.
Definition timePtrOutcome (rt : Runtime) (layout : string) (cur : Value)
  (value : string) : Outcome :=
  match time_Parse rt layout value with
  | ok timeVal => mkOutcome (VPtr (VTime timeVal)) Done [EvAlloc TTime]
  | fail e => mkOutcome cur (Failed e) []
  end.

(** [l] with [v] put in at index [i]. *)
Definition insertAt {A : Type} (i : nat) (v : A) (l : list A) : list A :=
  firstn i l ++ v :: skipn i l.

(** ** Construction, typing and keys *)

(** [*api.Client], when it is not nil: [client.KV()] answers lookups. *)
Record Client := mkClient { KV : string -> KVReply }.

(** [NewParser]: the parser and the error it returns. *)
Definition NewParser (client : option Client) : option Parser * status :=
  match client with
  | None => (None, Failed ErrNilClient)
  | Some c => (Some (mkParser (KV c)), Done)
  end.

Fixpoint forallb2 {A B : Type} (p : A -> B -> bool) (l1 : list A)
  (l2 : list B) : bool :=
  match l1, l2 with
  | [], [] => true
  | a :: l1', b :: l2' => p a b && forallb2 p l1' l2'
  | _, _ => false
  end.

(** [v] is a content a destination of type [t] can hold: integers within
    the width of their kind, one content per field of a struct, a pointer
    nil or pointing at a content of the pointee type. *)
Fixpoint hasType (rt : Runtime) (t : GoType) (v : Value) {struct t} : bool :=
  match t, v with
  | TBool, VBool _ => true
  | TInt k, VInt n => negb (OverflowInt (intBits rt k) n)
  | TUint k, VUint n => (0 <=? n) && negb (OverflowUint (uintBits rt k) n)
  | TFloat _, VFloat _ => true
  | TString, VString _ => true
  | TInterface, VNilIface => true
  | TInterface, VIface _ => true
  | TTime, VTime _ => true
  | TStruct fs, VStruct vs =>
      forallb2 (fun f fv => hasType rt (fieldType f) fv) fs vs
  | TPtr _, VNilPtr => true
  | TPtr elem, VPtr pointee => hasType rt elem pointee
  | TOther _, VOther _ => true
  | _, _ => false
  end.

(** The contents of the fields [fs], one by one. *)
Definition fieldsHaveType (rt : Runtime) (fs : list StructField)
  (vs : list Value) : bool :=
  forallb2 (fun f fv => hasType rt (fieldType f) fv) fs vs.

(** The key a field is bound to, if it has one. *)
Definition keyOf (key : string) : list string :=
  if isEmpty key then [] else [key].

(** The keys a complete binding of a destination of type [t] looks up, in
    the order of the lookups: for each field that can be set, its own key
    and then the keys inside its type. *)
Fixpoint keysOf (t : GoType) : list string :=
  match t with
  | TStruct fs =>
      flat_map
        (fun f =>
           match f with
           | mkField _ settable key ft =>
               if settable then keyOf key ++ keysOf ft else []
           end)
        fs
  | TPtr elem => keysOf elem
  | _ => []
  end.

Definition keysOfFields (fs : list StructField) : list string :=
  keysOf (TStruct fs).

(** The keys looked up in a trace, in order. *)
Definition lookups (tr : list Event) : list string :=
  flat_map (fun e => match e with EvGet k => [k] | EvAlloc _ => [] end) tr.

(** A field that binds nothing: it cannot be set, or it has no key and
    its type is a leaf type, direct or behind one pointer. *)
Definition bindsNothing (f : StructField) : bool :=
  match f with
  | mkField _ settable key ft =>
      negb settable
      || (isEmpty key
          && match ft with
             | TPtr elem => isLeaf elem
             | _ => isLeaf ft
             end)
  end.

(** The layout after a sequence of calls of [SetTimeLayout], each on the
    layout the one before left. *)
Definition setLayouts (parser : Parser) (layouts : list string)
  (timeLayout : string) : string :=
  fold_left (fun cur layout => fst (SetTimeLayout parser layout cur))
    layouts timeLayout.

(** The last non-empty string of [layouts], or [default]. *)
Definition lastNonEmpty (layouts : list string) (default : string) : string :=
  fold_left (fun cur layout => if isEmpty layout then cur else layout)
    layouts default.

(** A struct held directly (not the temporal type, not behind a
    pointer). *)
Definition isStruct (t : GoType) : bool :=
  match t with TStruct _ => true | _ => false end.


(** The temporal type occurs in [t]. *)
Fixpoint mentionsTime (t : GoType) : bool :=
  match t with
  | TTime => true
  | TStruct fs => existsb (fun f => mentionsTime (fieldType f)) fs
  | TPtr elem => mentionsTime elem
  | _ => false
  end.

(** As a function of what the destination holds, a call either hands the
    content back with a fixed status and trace, or stores a fixed content
    with a fixed status and trace. *)
Definition keepsOrStores (f : Value -> Outcome) : Prop :=
  exists st tr,
    (forall cur, f cur = mkOutcome cur st tr)
    \/ (exists d, forall cur, f cur = mkOutcome d st tr).

(** How the lookups of an outcome stand to the keys of a type: a prefix
    of them, and all of them when the call ended without an error. *)
Definition lookupsWithin (keys : list string) (st : status)
  (tr : list Event) : Prop :=
  (st = Done -> lookups tr = keys)
  /\ exists rest, keys = lookups tr ++ rest.

(** ** Induction over types, through the fields of structs *)

Section GoTypeInduction.

Variable P : GoType -> Prop.
Hypothesis Hleaf : forall t, isLeaf t = true -> P t.
Hypothesis Hother : forall k, P (TOther k).
Hypothesis Hptr : forall elem, P elem -> P (TPtr elem).
Hypothesis Hstruct :
  forall fs, Forall (fun f => P (fieldType f)) fs -> P (TStruct fs).

Fixpoint GoType_fields_ind (t : GoType) : P t :=
  match t with
  | TBool => Hleaf TBool eq_refl
  | TInt k => Hleaf (TInt k) eq_refl
  | TUint k => Hleaf (TUint k) eq_refl
  | TFloat k => Hleaf (TFloat k) eq_refl
  | TString => Hleaf TString eq_refl
  | TInterface => Hleaf TInterface eq_refl
  | TTime => Hleaf TTime eq_refl
  | TStruct fs =>
      Hstruct fs
        ((fix fields (l : list StructField)
            : Forall (fun f => P (fieldType f)) l :=
            match l with
            | [] => Forall_nil _
            | f :: l' =>
                Forall_cons f
                  (match f return P (fieldType f) with
                   | mkField _ _ _ ft => GoType_fields_ind ft
                   end)
                  (fields l')
            end) fs)
  | TPtr elem => Hptr elem (GoType_fields_ind elem)
  | TOther k => Hother k
  end.

End GoTypeInduction.

(** ** One field at a time *)

(** What the body of the loop of [parse] does to one field [f] holding
    [v], read off [getValue] and [assign] alone: how the step ends, what
    the field holds afterwards, and the effects of the step. *)
Definition fieldStatus (rt : Runtime) (parser : Parser) (timeLayout : string)
  (f : StructField) (v : Value) : status :=
  match f with
  | mkField _ settable key ft =>
      if negb settable then Done
      else match getValue parser key with
           | (value, Done, _) => err (assign rt parser timeLayout ft v value)
           | (_, e, _) => e
           end
  end.

Definition fieldContent (rt : Runtime) (parser : Parser)
  (timeLayout : string) (f : StructField) (v : Value) : Value :=
  match f with
  | mkField _ settable key ft =>
      if negb settable then v
      else match getValue parser key with
           | (value, Done, _) => dest (assign rt parser timeLayout ft v value)
           | (_, _, _) => v
           end
  end.

Definition fieldEffects (rt : Runtime) (parser : Parser)
  (timeLayout : string) (f : StructField) (v : Value) : list Event :=
  match f with
  | mkField _ settable key ft =>
      if negb settable then []
      else match getValue parser key with
           | (value, Done, tr) =>
               tr ++ trace (assign rt parser timeLayout ft v value)
           | (_, _, tr) => tr
           end
  end.

Definition isDone (st : status) : bool :=
  match st with Done => true | _ => false end.

(** Every field of [fs] (holding [vs], one content per field) goes
    through its step without an error. *)
Definition bindsCleanly (rt : Runtime) (parser : Parser)
  (timeLayout : string) (fs : list StructField) (vs : list Value) : bool :=
  forallb2 (fun f v => isDone (fieldStatus rt parser timeLayout f v)) fs vs.

(** The contents and the effects of the steps of all the fields, each
    field taken on its own. *)
Fixpoint contentsAfter (rt : Runtime) (parser : Parser) (timeLayout : string)
  (fs : list StructField) (vs : list Value) : list Value :=
  match fs, vs with
  | f :: fs', v :: vs' =>
      fieldContent rt parser timeLayout f v
      :: contentsAfter rt parser timeLayout fs' vs'
  | _, _ => vs
  end.

Fixpoint effectsOf (rt : Runtime) (parser : Parser) (timeLayout : string)
  (fs : list StructField) (vs : list Value) : list Event :=
  match fs, vs with
  | f :: fs', v :: vs' =>
      fieldEffects rt parser timeLayout f v
      ++ effectsOf rt parser timeLayout fs' vs'
  | _, _ => []
  end.

(** ** Equations of the engine *)

Section EngineFacts.

Variable rt : Runtime.
Variable parser : Parser.
Variable timeLayout : string.

Local Abbreviation getValue' := (getValue parser).
Local Abbreviation assign' := (assign rt parser timeLayout).
Local Abbreviation assignPointer' := (assignPointer rt parser timeLayout).
Local Abbreviation assignNonPointer' := (assignNonPointer rt parser timeLayout).
Local Abbreviation parse' := (parse rt parser timeLayout).
Local Abbreviation Parse' := (Parse rt parser timeLayout).

Lemma parse_nil vs : parse' [] vs = mkStructOutcome vs Done [].
Proof. destruct vs; reflexivity. Qed.

Lemma parse_skip name key ft fs v vs :
  parse' (mkField name false key ft :: fs) (v :: vs)
  = mkStructOutcome (v :: fieldValues (parse' fs vs))
      (structErr (parse' fs vs)) (structTrace (parse' fs vs)).
Proof. reflexivity. Qed.

Lemma parse_settable name key ft fs v vs :
  parse' (mkField name true key ft :: fs) (v :: vs)
  = match getValue' key with
    | (value, Done, tr) =>
        let a := assign' ft v value in
        match err a with
        | Done =>
            let r := parse' fs vs in
            mkStructOutcome (dest a :: fieldValues r) (structErr r)
              (tr ++ trace a ++ structTrace r)
        | e => mkStructOutcome (dest a :: vs) e (tr ++ trace a)
        end
    | (_, e, tr) => mkStructOutcome (v :: vs) e tr
    end.
Proof. reflexivity. Qed.

Lemma assignNonPointer_struct fs vs value :
  assignNonPointer' (TStruct fs) (VStruct vs) value
  = mkOutcome (VStruct (fieldValues (parse' fs vs))) (structErr (parse' fs vs))
      (structTrace (parse' fs vs)).
Proof. reflexivity. Qed.

Lemma assignPointer_ptr elem cur value :
  assignPointer' (TPtr elem) cur value
  = let r := assignPointer' elem VNilPtr value in
    match err r with
    | Done => mkOutcome (VPtr (dest r)) Done (EvAlloc (TPtr elem) :: trace r)
    | e => mkOutcome cur e (EvAlloc (TPtr elem) :: trace r)
    end.
Proof. reflexivity. Qed.

(** [parse] never changes the number of fields. *)
Lemma parse_length fs :
  forall vs, length (fieldValues (parse' fs vs)) = length vs.
Proof.
  induction fs as [|[name settable key ft] fs IH]; intros vs.
  - now rewrite parse_nil.
  - destruct vs as [|v vs]; [reflexivity|].
    destruct settable.
    + rewrite parse_settable.
      destruct (getValue' key) as [[value st] tr].
      destruct st; simpl; [|reflexivity|reflexivity].
      destruct (err (assign' ft v value)); simpl; now rewrite ?IH.
    + rewrite parse_skip; simpl. now rewrite IH.
Qed.

(** The loop over [pre ++ fs] runs over [pre], and goes on with [fs] only
    when [pre] ended without an error. *)
Lemma parse_app pre :
  forall vpre fs vs,
    length pre = length vpre ->
    parse' (pre ++ fs) (vpre ++ vs)
    = let a := parse' pre vpre in
      match structErr a with
      | Done =>
          let b := parse' fs vs in
          mkStructOutcome (fieldValues a ++ fieldValues b) (structErr b)
            (structTrace a ++ structTrace b)
      | e => mkStructOutcome (fieldValues a ++ vs) e (structTrace a)
      end.
Proof.
  induction pre as [|[name settable key ft] pre IH]; intros vpre fs vs Hlen.
  - destruct vpre; [|discriminate]. simpl app. rewrite parse_nil. simpl.
    now destruct (parse' fs vs).
  - destruct vpre as [|v vpre]; [discriminate|].
    injection Hlen as Hlen. simpl app.
    destruct settable.
    + rewrite !parse_settable.
      destruct (getValue' key) as [[value st] tr].
      destruct st; simpl; [|reflexivity|reflexivity].
      destruct (err (assign' ft v value)); simpl; [|reflexivity|reflexivity].
      rewrite (IH vpre fs vs Hlen). simpl.
      destruct (structErr (parse' pre vpre)); simpl;
        now rewrite <- ?app_assoc.
    + rewrite !parse_skip. rewrite (IH vpre fs vs Hlen). simpl.
      now destruct (structErr (parse' pre vpre)).
Qed.

Lemma forallb2_length {A B : Type} (p : A -> B -> bool) l1 :
  forall l2, forallb2 p l1 l2 = true -> length l1 = length l2.
Proof.
  induction l1 as [|a l1 IH]; intros [|b l2] H; try discriminate H;
    [reflexivity|].
  simpl in H. apply andb_true_iff in H. destruct H as [_ H].
  simpl. now rewrite (IH l2 H).
Qed.

(** Fields that all go through their step without an error are bound to
    the contents and with the effects of their steps, in order. *)
Lemma parse_clean fs :
  forall vs,
    bindsCleanly rt parser timeLayout fs vs = true ->
    parse' fs vs
    = mkStructOutcome (contentsAfter rt parser timeLayout fs vs) Done
        (effectsOf rt parser timeLayout fs vs).
Proof.
  induction fs as [|[name settable key ft] fs IH]; intros vs Hclean.
  - destruct vs; [reflexivity | discriminate Hclean].
  - destruct vs as [|v vs]; [discriminate Hclean|].
    unfold bindsCleanly in Hclean. cbn [forallb2] in Hclean.
    apply andb_true_iff in Hclean. destruct Hclean as [Hf Hrest].
    specialize (IH vs Hrest).
    cbn [contentsAfter effectsOf]. unfold fieldStatus in Hf.
    unfold fieldContent, fieldEffects.
    destruct settable; cbn [negb] in Hf |- *.
    + rewrite parse_settable.
      destruct (getValue' key) as [[value st] tr].
      destruct st; try discriminate Hf. cbv zeta.
      destruct (err (assign' ft v value)); try discriminate Hf.
      rewrite IH. cbn [fieldValues structErr structTrace].
      now rewrite app_assoc.
    + rewrite parse_skip, IH. reflexivity.
Qed.

End EngineFacts.

Lemma insertAt_app {A : Type} (l1 l2 : list A) (v : A) :
  insertAt (length l1) v (l1 ++ l2) = l1 ++ v :: l2.
Proof.
  unfold insertAt.
  rewrite firstn_app, skipn_app, firstn_all, skipn_all, Nat.sub_diag.
  simpl. now rewrite app_nil_r.
Qed.

Lemma nth_error_middle {A : Type} (l1 l2 : list A) (v : A) :
  nth_error (l1 ++ v :: l2) (length l1) = Some v.
Proof.
  rewrite nth_error_app2 by apply Nat.le_refl.
  now rewrite Nat.sub_diag.
Qed.

(** ** Struct recursion *)

Section StructRecursion.

Variable rt : Runtime.
Variable parser : Parser.
Variable timeLayout : string.

Local Abbreviation parse' := (parse rt parser timeLayout).
Local Abbreviation Parse' := (Parse rt parser timeLayout).

(** C3.  Let every field of [pre] go through its step without an error
    (it cannot be set, or its lookup and its assignment both end without
    one), and let the next field, which can be set, fail with the error
    [e]: either [getValue] on its key ends in [e], or [getValue] gives a
    value and [assign] on the field with that value ends in [e].  Then
    [parse] of the whole struct returns exactly [e]; the fields of [pre]
    hold what their assignments wrote; the failing field holds what its
    own [assign] left (its old content when the lookup failed); the
    fields after it hold their old content; the trace ends with the
    effects of the failing field, so nothing is looked up or allocated
    for a later field; and [Parse] of a pointer to the struct returns [e]
    too. *)
Theorem parse_stops_at_first_error :
  forall pre name key ft post vpre v vpost e value st tr,
    bindsCleanly rt parser timeLayout pre vpre = true ->
    getValue parser key = (value, st, tr) ->
    st = Failed e
    \/ (st = Done
        /\ err (assign rt parser timeLayout ft v value) = Failed e) ->
    let whole :=
      parse rt parser timeLayout
        (pre ++ mkField name true key ft :: post) (vpre ++ v :: vpost) in
    structErr whole = Failed e
    /\ fieldValues whole
       = contentsAfter rt parser timeLayout pre vpre
         ++ match st with
            | Done => dest (assign rt parser timeLayout ft v value)
            | _ => v
            end
         :: vpost
    /\ structTrace whole
       = effectsOf rt parser timeLayout pre vpre
         ++ tr
         ++ match st with
            | Done => trace (assign rt parser timeLayout ft v value)
            | _ => []
            end
    /\ err (Parse rt parser timeLayout
              (TargetOf
                 (TPtr (TStruct (pre ++ mkField name true key ft :: post)))
                 (VPtr (VStruct (vpre ++ v :: vpost)))))
       = Failed e.
Proof.
  intros pre name key ft post vpre v vpost e value st tr Hclean Hget Hfail
    whole.
  assert (Hlen : length pre = length vpre)
    by (apply (forallb2_length _ pre vpre Hclean)).
  assert (Hwhole :
            whole
            = mkStructOutcome
                (contentsAfter rt parser timeLayout pre vpre
                 ++ match st with
                    | Done => dest (assign rt parser timeLayout ft v value)
                    | _ => v
                    end
                 :: vpost)
                (Failed e)
                (effectsOf rt parser timeLayout pre vpre
                 ++ tr
                 ++ match st with
                    | Done => trace (assign rt parser timeLayout ft v value)
                    | _ => []
                    end)).
  { unfold whole.
    rewrite (parse_app rt parser timeLayout pre vpre _ _ Hlen). cbv zeta.
    rewrite (parse_clean rt parser timeLayout pre vpre Hclean).
    cbn [structErr fieldValues structTrace].
    rewrite parse_settable, Hget.
    destruct Hfail as [-> | [-> Hassign]].
    - cbn [fieldValues structErr structTrace]. now rewrite app_nil_r.
    - cbv zeta. rewrite Hassign. reflexivity. }
  change (err (Parse rt parser timeLayout
                 (TargetOf
                    (TPtr (TStruct (pre ++ mkField name true key ft :: post)))
                    (VPtr (VStruct (vpre ++ v :: vpost))))))
    with (structErr whole).
  rewrite Hwhole. repeat split.
Qed.

(** C9.  A field that cannot be set contributes nothing: binding a struct
    that has such a field [f] at some index ends as binding the struct
    without [f] does, with the same trace (so no lookup is made for the key
    of [f], whatever the store would answer), and the content [v] of [f]
    is still in place afterwards. *)
Theorem parse_skips_unsettable_field :
  forall pre f post vpre v vpost,
    length pre = length vpre ->
    fieldCanSet f = false ->
    let whole := parse' (pre ++ f :: post) (vpre ++ v :: vpost) in
    let without := parse' (pre ++ post) (vpre ++ vpost) in
    structErr whole = structErr without
    /\ structTrace whole = structTrace without
    /\ fieldValues whole = insertAt (length pre) v (fieldValues without)
    /\ nth_error (fieldValues whole) (length pre) = Some v.
Proof.
  intros pre [name settable key ft] post vpre v vpost Hlen Hset whole without.
  simpl in Hset. subst settable.
  assert (Hpre : length (fieldValues (parse' pre vpre)) = length pre)
    by now rewrite parse_length.
  unfold whole, without.
  rewrite !(parse_app rt parser timeLayout pre vpre _ _ Hlen). cbv zeta.
  rewrite parse_skip. rewrite <- Hpre.
  destruct (structErr (parse' pre vpre));
    cbn [fieldValues structErr structTrace];
    rewrite insertAt_app, nth_error_middle; auto.
Qed.

End StructRecursion.

(** ** The assignment engine *)

Section Assignment.

Variable rt : Runtime.
Variable parser : Parser.
Variable timeLayout : string.

Local Abbreviation assign' := (assign rt parser timeLayout).
Local Abbreviation assignPointer' := (assignPointer rt parser timeLayout).
Local Abbreviation assignNonPointer' := (assignNonPointer rt parser timeLayout).

Lemma assign_ptrTo_S n t cur value :
  assign' (ptrTo (S n) t) cur value = assignPointer' (ptrTo n t) cur value.
Proof. reflexivity. Qed.

Lemma assignNonPointer_overflow t cur value :
  isEmpty value = false ->
  parsesButOverflows rt t value = true ->
  assignNonPointer' t cur value = mkOutcome cur (Failed ErrOverflowSet) [].
Proof.
  intros Hne Hov.
  destruct t; simpl in Hov; try discriminate; simpl; rewrite Hne.
  - destruct (ParseInt value); [now rewrite Hov | discriminate].
  - destruct (ParseUint value); [now rewrite Hov | discriminate].
  - destruct (strconv_ParseFloat rt value); [now rewrite Hov | discriminate].
Qed.

Lemma assignPointer_overflow t value :
  isEmpty value = false ->
  parsesButOverflows rt t value = true ->
  forall n cur,
    err (assignPointer' (ptrTo n t) cur value) = Failed ErrOverflowSet
    /\ dest (assignPointer' (ptrTo n t) cur value) = cur.
Proof.
  intros Hne Hov n.
  induction n as [|n IH]; intros cur.
  - destruct t; simpl in Hov; try discriminate; simpl; rewrite Hne.
    + destruct (ParseInt value); [now rewrite Hov | discriminate].
    + destruct (ParseUint value); [now rewrite Hov | discriminate].
    + destruct (strconv_ParseFloat rt value); [now rewrite Hov | discriminate].
  - simpl ptrTo. rewrite assignPointer_ptr. cbv zeta.
    destruct (IH VNilPtr) as [Herr _]. now rewrite Herr.
Qed.

(** C2.  Whatever the number of pointer layers [n] around a signed,
    unsigned or floating-point type [t], a non-empty text that parses to a
    number that does not fit [t] makes [assign] return [ErrOverflowSet],
    and the destination holds what it held before. *)
Theorem assign_overflow_leaves_destination :
  forall n t cur value,
    isEmpty value = false ->
    parsesButOverflows rt t value = true ->
    err (assign' (ptrTo n t) cur value) = Failed ErrOverflowSet
    /\ dest (assign' (ptrTo n t) cur value) = cur.
Proof.
  intros n t cur value Hne Hov.
  destruct n as [|n].
  - simpl ptrTo.
    assert (Ht : assign' t cur value = assignNonPointer' t cur value)
      by (destruct t; simpl in Hov; try discriminate; reflexivity).
    rewrite Ht, (assignNonPointer_overflow t cur value Hne Hov). now split.
  - rewrite assign_ptrTo_S. now apply assignPointer_overflow.
Qed.

(** C1, as the code has it.  For a leaf type [t] (text, dynamic slot,
    integer, float, boolean, temporal), held directly or behind one
    pointer, an empty value is a no-op: no error, the destination as it
    was (a nil pointer stays nil), no lookup and no allocation.  A
    destination of a kind the parser does not handle, direct or behind one
    pointer, is left as it was too, but the call returns
    [ErrUnhandledKind]. *)
Theorem assign_empty_value_leaf :
  forall t cur curp k curo,
    (isLeaf t = true ->
       assign' t cur "" = untouched cur
       /\ assign' (TPtr t) curp "" = untouched curp)
    /\ assign' (TOther k) curo "" = mkOutcome curo (Failed ErrUnhandledKind) []
    /\ assign' (TPtr (TOther k)) curo ""
       = mkOutcome curo (Failed ErrUnhandledKind) [].
Proof.
  intros t cur curp k curo. repeat split.
  - destruct t; try discriminate; reflexivity.
  - destruct t; try discriminate; reflexivity.
Qed.

(** Two or more pointer layers around a leaf type: the [Ptr] case has no
    emptiness test of its own, so an empty value leaves a chain of fresh
    cells that ends in a nil pointer. *)
Lemma assign_empty_value_deep_pointer t :
  isLeaf t = true ->
  forall n cur,
    err (assign' (ptrTo (S (S n)) t) cur "") = Done
    /\ dest (assign' (ptrTo (S (S n)) t) cur "") = ptrChain (S n) VNilPtr.
Proof.
  intros Hleaf n.
  assert (Hbase : forall cur, assignPointer' t cur "" = untouched cur)
    by (intros cur; destruct t; try discriminate; reflexivity).
  induction n as [|n IH]; intros cur; rewrite assign_ptrTo_S; simpl ptrTo;
    rewrite assignPointer_ptr; cbv zeta.
  - rewrite Hbase. now split.
  - destruct (IH VNilPtr) as [Herr Hdest].
    rewrite assign_ptrTo_S in Herr, Hdest. simpl ptrTo in Herr, Hdest.
    rewrite Herr. cbn [dest err]. split; [reflexivity|].
    now rewrite Hdest.
Qed.

(** A 64-bit number that passed the overflow check is stored as it is. *)
Lemma wrapInt_fits x :
  OverflowInt 64 x = false -> wrapInt 64 x = x.
Proof.
  unfold OverflowInt, wrapInt. intros H.
  apply negb_false_iff, andb_true_iff in H. destruct H as [Hlo Hhi].
  apply Z.leb_le in Hlo. apply Z.ltb_lt in Hhi.
  change (2 ^ (64 - 1)) with 9223372036854775808 in *.
  change (2 ^ 64) with 18446744073709551616.
  destruct (Z_lt_le_dec x 0) as [Hneg | Hpos].
  - rewrite <- (Z.mod_add x 1) by lia. rewrite Z.mod_small by lia.
    destruct (Z.leb_spec 9223372036854775808 (x + 1 * 18446744073709551616));
      lia.
  - rewrite Z.mod_small by lia.
    destruct (Z.leb_spec 9223372036854775808 x); lia.
Qed.

Lemma wrapUint_fits x :
  0 <= x -> OverflowUint 64 x = false -> wrapUint 64 x = x.
Proof.
  unfold OverflowUint, wrapUint. intros Hx H.
  apply negb_false_iff, Z.ltb_lt in H. now apply Z.mod_small.
Qed.

Lemma digitOf_nonneg c d : digitOf c = Some d -> 0 <= d.
Proof.
  unfold digitOf.
  destruct ((48 <=? Z.of_N (N_of_ascii c)) && (Z.of_N (N_of_ascii c) <=? 57))
    eqn:E; [|discriminate].
  intros H. injection H as <-.
  apply andb_true_iff in E. destruct E as [E _]. apply Z.leb_le in E. lia.
Qed.

Lemma parseDigits_nonneg s :
  forall n m, 0 <= n -> parseDigits s n = inl m -> 0 <= m.
Proof.
  induction s as [|c s IH]; intros n m Hn H; cbn [parseDigits] in H.
  - now injection H as <-.
  - destruct (digitOf c) as [d|] eqn:Ed; [|discriminate].
    apply digitOf_nonneg in Ed.
    destruct (2 ^ 64 - 1 <? n * 10 + d); [discriminate|].
    apply (IH (n * 10 + d)); [lia | exact H].
Qed.

Lemma ParseUint_nonneg s x : ParseUint s = ok x -> 0 <= x.
Proof.
  unfold ParseUint. destruct (isEmpty s); [discriminate|].
  destruct (parseDigits s 0) as [n|c] eqn:E; [|discriminate].
  intros H. injection H as <-. now apply (parseDigits_nonneg s 0 n).
Qed.

(** One pointer layer around a pointee type whose cell accepts the Go
    value built by [assignPointer]: the fresh cell holds what a direct
    destination of that type would hold. *)
Lemma assignPointer_exact_leaf t value cur0 :
  isExactLeaf t = true ->
  isEmpty value = false ->
  err (assign' t cur0 value) = Done ->
  forall cur,
    assignPointer' t cur value
    = mkOutcome (VPtr (dest (assign' t cur0 value))) Done [EvAlloc t].
Proof.
  intros Hex Hne Hok cur.
  destruct t as [ |k|k|k| | | | | | ]; try discriminate;
    try destruct k; try discriminate;
    simpl in Hok |- *; rewrite Hne in Hok |- *.
  - destruct (ParseBool value); [reflexivity | discriminate Hok].
  - destruct (ParseInt value) as [x|]; [|discriminate Hok].
    destruct (OverflowInt 64 x) eqn:Eo; [discriminate Hok|].
    simpl. now rewrite wrapInt_fits.
  - destruct (ParseUint value) as [x|] eqn:Ep; [|discriminate Hok].
    destruct (OverflowUint 64 x) eqn:Eo; [discriminate Hok|].
    simpl. rewrite wrapUint_fits; eauto using ParseUint_nonneg.
  - destruct (strconv_ParseFloat rt value); [reflexivity | discriminate Hok].
  - reflexivity.
  - reflexivity.
  - destruct (time_Parse rt timeLayout value); [reflexivity | discriminate Hok].
Qed.

(** Pointer depth is unwound uniformly for those pointee types: [n + 1]
    layers give the direct result under [n + 1] cells. *)
Lemma assign_pointer_depth_exact_leaf t value cur0 :
  isExactLeaf t = true ->
  isEmpty value = false ->
  err (assign' t cur0 value) = Done ->
  forall n cur,
    err (assign' (ptrTo (S n) t) cur value) = Done
    /\ dest (assign' (ptrTo (S n) t) cur value)
       = ptrChain (S n) (dest (assign' t cur0 value)).
Proof.
  intros Hex Hne Hok n.
  induction n as [|n IH]; intros cur.
  - rewrite assign_ptrTo_S. simpl ptrTo.
    rewrite (assignPointer_exact_leaf t value cur0 Hex Hne Hok). now split.
  - rewrite assign_ptrTo_S. simpl ptrTo. rewrite assignPointer_ptr. cbv zeta.
    destruct (IH VNilPtr) as [Herr Hdest].
    rewrite assign_ptrTo_S in Herr, Hdest.
    rewrite Herr. simpl. now rewrite Hdest.
Qed.

End Assignment.

(** ** The value resolver and the entry point *)

Section EntryPoint.

Variable rt : Runtime.
Variable parser : Parser.
Variable timeLayout : string.

Local Abbreviation assign' := (assign rt parser timeLayout).
Local Abbreviation Parse' := (Parse rt parser timeLayout).

(** A failed request is returned as it is, after one lookup. *)
Lemma getValue_request_error key e :
  isEmpty key = false ->
  consulKV parser key = GetErr e ->
  getValue parser key = ("", Failed e, [EvGet key]).
Proof. intros Hne Hget. unfold getValue. now rewrite Hne, Hget. Qed.

(** An entry that is absent without a request error ends in a panic. *)
Lemma getValue_absent key :
  isEmpty key = false ->
  consulKV parser key = GetAbsent ->
  getValue parser key = ("", Panicked NilPointerDereference, [EvGet key]).
Proof. intros Hne Hget. unfold getValue. now rewrite Hne, Hget. Qed.

Lemma getRecursivePointerVal_chain t v :
  isPtr t = false ->
  forall n, getRecursivePointerVal (ptrTo n t) (ptrChain n v) = Some (t, v).
Proof.
  intros Ht n. induction n as [|n IH]; simpl; [|exact IH].
  destruct t; try reflexivity; discriminate.
Qed.

Lemma storeReferent_chain t v new :
  isPtr t = false ->
  forall n, storeReferent (ptrTo n t) (ptrChain n v) new = ptrChain n new.
Proof.
  intros Ht n. induction n as [|n IH]; simpl; [|now rewrite IH].
  destruct t; try reflexivity; discriminate.
Qed.

(** [Parse] on a chain of [n + 1] pointers to a non-pointer referent. *)
Lemma Parse_chain t v n :
  isPtr t = false ->
  Parse' (TargetOf (ptrTo (S n) t) (ptrChain (S n) v))
  = mkOutcome (ptrChain (S n) (dest (assign' t v "")))
      (err (assign' t v "")) (trace (assign' t v "")).
Proof.
  intros Ht. unfold Parse.
  change (isPtr (ptrTo (S n) t)) with true. cbv iota beta delta [negb].
  rewrite (getRecursivePointerVal_chain t v Ht (S n)).
  now rewrite (storeReferent_chain t v _ Ht (S n)).
Qed.

(** C6.  A target that is not of pointer kind (nothing at all, or a value
    such as a struct passed directly) makes [Parse] return
    [ErrNonPointerType] with no lookup and the target as it was.  A target
    that is a chain of [n + 1] pointers is unwound to its first
    non-pointer referent [(t, v)], and [Parse] is [assign] on that
    referent with the empty value, written in place under the chain. *)
Theorem Parse_checks_and_unwinds_pointer :
  forall target n t v,
    (targetKind target <> reflect.Ptr ->
       err (Parse' target) = Failed ErrNonPointerType
       /\ trace (Parse' target) = []
       /\ forall t0 v0, target = TargetOf t0 v0 -> dest (Parse' target) = v0)
    /\ (isPtr t = false ->
          getRecursivePointerVal (ptrTo (S n) t) (ptrChain (S n) v)
          = Some (t, v)
          /\ Parse' (TargetOf (ptrTo (S n) t) (ptrChain (S n) v))
             = mkOutcome (ptrChain (S n) (dest (assign' t v "")))
                 (err (assign' t v "")) (trace (assign' t v ""))).
Proof.
  intros target n t v. split.
  - intros Hkind. destruct target as [|t0 v0].
    + repeat split. intros ? ? H. discriminate H.
    + assert (Hnp : isPtr t0 = false)
        by (destruct t0; try reflexivity; now elim Hkind).
      unfold Parse. rewrite Hnp. simpl. repeat split.
      intros ? ? H. now injection H as _ <-.
  - intros Ht. split.
    + now apply getRecursivePointerVal_chain.
    + now apply Parse_chain.
Qed.

(** C8.  A chain of [n + 1] valid pointers that ends in a primitive
    referent (string, interface, integer, float, boolean): [Parse] returns
    no error, makes no lookup (the trace is empty) and leaves the target,
    referent included, as it was. *)
Theorem Parse_primitive_referent_noop :
  forall n t v,
    isPrimitive t = true ->
    Parse' (TargetOf (ptrTo (S n) t) (ptrChain (S n) v))
    = mkOutcome (ptrChain (S n) v) Done [].
Proof.
  intros n t v Hprim.
  assert (Ht : isPtr t = false) by (destruct t; try reflexivity; discriminate).
  assert (Hnoop : assign' t v "" = untouched v)
    by (destruct t; try discriminate; reflexivity).
  rewrite (Parse_chain t v n Ht), Hnoop. reflexivity.
Qed.

End EntryPoint.

(** ** The temporal layout *)

Lemma assign_time rt parser layout cur value :
  isEmpty value = false ->
  assign rt parser layout TTime cur value = timeOutcome rt layout cur value.
Proof. intros Hne. unfold timeOutcome. simpl. now rewrite Hne. Qed.

Lemma assign_time_pointer rt parser layout cur value :
  isEmpty value = false ->
  assign rt parser layout (TPtr TTime) cur value
  = timePtrOutcome rt layout cur value.
Proof. intros Hne. unfold timePtrOutcome. simpl. now rewrite Hne. Qed.

(** C7.  [SetTimeLayout] with the empty string returns [ErrEmptyLayout],
    an error distinct from the other errors of the package, and the layout
    stays what it was.  With a non-empty string it returns no error, and
    every temporal assignment made afterwards, direct or behind a pointer,
    parses against the new layout. *)
Theorem SetTimeLayout_rejects_empty_replaces_otherwise :
  forall parser layout timeLayout,
    SetTimeLayout parser "" timeLayout = (timeLayout, Failed ErrEmptyLayout)
    /\ ~ In ErrEmptyLayout
         [ErrNilClient; ErrNonPointerType; ErrUnhandledKind; ErrOverflowSet]
    /\ (isEmpty layout = false ->
          SetTimeLayout parser layout timeLayout = (layout, Done)
          /\ forall rt parser' cur value,
               isEmpty value = false ->
               let now := fst (SetTimeLayout parser layout timeLayout) in
               assign rt parser' now TTime cur value
               = timeOutcome rt layout cur value
               /\ assign rt parser' now (TPtr TTime) cur value
                  = timePtrOutcome rt layout cur value).
Proof.
  intros parser layout timeLayout. split; [reflexivity|]. split.
  - simpl. intros [H|[H|[H|[H|[]]]]]; discriminate H.
  - intros Hne.
    assert (Hset : SetTimeLayout parser layout timeLayout = (layout, Done))
      by (unfold SetTimeLayout; now rewrite Hne).
    split; [exact Hset|].
    intros rt parser' cur value Hv. rewrite Hset. simpl fst. cbv zeta.
    split; [now apply assign_time | now apply assign_time_pointer].
Qed.

(** C10.  The setter checks nothing but emptiness: any non-empty string is
    accepted, whatever [time.Parse] makes of it, and the result does not
    depend on the parser the setter is called on.  The layout is one
    variable of the package: after it was set through [p1], a temporal
    assignment made through any parser [p2] parses against it. *)
Theorem timeLayout_is_unchecked_and_shared :
  forall p1 p2 rt layout timeLayout cur value,
    isEmpty layout = false ->
    isEmpty value = false ->
    SetTimeLayout p1 layout timeLayout = (layout, Done)
    /\ SetTimeLayout p2 layout timeLayout = SetTimeLayout p1 layout timeLayout
    /\ assign rt p2 (fst (SetTimeLayout p1 layout timeLayout)) TTime cur value
       = timeOutcome rt layout cur value
    /\ assign rt p2 (fst (SetTimeLayout p1 layout timeLayout)) (TPtr TTime)
         cur value
       = timePtrOutcome rt layout cur value.
Proof.
  intros p1 p2 rt layout timeLayout cur value Hl Hv.
  unfold SetTimeLayout. rewrite Hl. simpl fst.
  repeat split; [now apply assign_time | now apply assign_time_pointer].
Qed.

(** ** The code at concrete inputs *)

(** C1, as stated, fails twice.  A destination of map kind given the empty
    value gets [ErrUnhandledKind], not "no error".  A nil [**int64] given
    the empty value does not stay nil: a [*int64] cell is allocated and the
    destination points at it (the cell itself holds nil). *)
Lemma assign_empty_value_counterexample :
  err (assign testRuntime mockParser RFC3339 (TOther KMap) (VOther KMap) "")
  = Failed ErrUnhandledKind
  /\ assign testRuntime mockParser RFC3339 (ptrTo 2 (TInt KInt64)) VNilPtr ""
     = mkOutcome (VPtr VNilPtr) Done [EvAlloc (TPtr (TInt KInt64))]
  /\ dest (assign testRuntime mockParser RFC3339 (ptrTo 2 (TInt KInt64))
             VNilPtr "")
     <> VNilPtr.
Proof.
  split; [reflexivity|]. split; [reflexivity|].
  intros H. discriminate H.
Qed.

(** C4.  The text ["5"] fits an [int8].  A direct [int8] destination
    receives 5; a [*int8] destination does not receive a pointer to 5: the
    [int64] that was parsed is handed to [reflect.Value.Set] on an [int8]
    cell, which panics, and so do [**int8] and [***int8].  With [int64] in
    place of [int8] all four depths hold -10 for the text ["-10"]. *)
Theorem assign_pointer_to_narrow_int_panics :
  assign testRuntime mockParser RFC3339 (TInt KInt8) (VInt 0) "5"
  = mkOutcome (VInt 5) Done []
  /\ assign testRuntime mockParser RFC3339 (TPtr (TInt KInt8)) VNilPtr "5"
     = mkOutcome VNilPtr
         (Panicked (SetNotAssignable (TInt KInt64) (TInt KInt8)))
         [EvAlloc (TInt KInt8)]
  /\ err (assign testRuntime mockParser RFC3339 (ptrTo 2 (TInt KInt8))
            VNilPtr "5")
     = Panicked (SetNotAssignable (TInt KInt64) (TInt KInt8))
  /\ err (assign testRuntime mockParser RFC3339 (ptrTo 3 (TInt KInt8))
            VNilPtr "5")
     = Panicked (SetNotAssignable (TInt KInt64) (TInt KInt8))
  /\ map (fun n => dest (assign testRuntime mockParser RFC3339
                           (ptrTo n (TInt KInt64)) (ptrChain n (VInt 0))
                           "-10"))
       [0; 1; 2; 3]%nat
     = map (fun n => ptrChain n (VInt (-10))) [0; 1; 2; 3]%nat.
Proof. repeat split. Qed.

(** C5.  On a store that answers an unknown key with an absent entry and
    no request error, [getValue] does not return an error: it panics on
    the nil pair, and so does the [Parse] around it.  On the mocked
    transport of the test suite the same key is a failed request, which
    is returned as an error. *)
Theorem getValue_absent_entry_panics :
  getValue consulParser "string/hello"
  = ("", Panicked NilPointerDereference, [EvGet "string/hello"])
  /\ err (Parse testRuntime consulParser RFC3339
            (TargetOf (TPtr (TStruct missingKeyStruct))
               (VPtr (VStruct (zeroFields missingKeyStruct)))))
     = Panicked NilPointerDereference
  /\ getValue mockParser "string/hello"
     = ("", Failed (ConsulError "no responder found"), [EvGet "string/hello"]).
Proof. repeat split. Qed.

(** ** Instances *)

Lemma assign_empty_value_leaf_witness :
  assign testRuntime mockParser RFC3339 (TInt KInt16) (VInt 7) ""
  = untouched (VInt 7)
  /\ assign testRuntime mockParser RFC3339 (TPtr (TInt KInt16)) VNilPtr ""
     = untouched VNilPtr.
Proof.
  apply (proj1 (assign_empty_value_leaf testRuntime mockParser RFC3339
                  (TInt KInt16) (VInt 7) VNilPtr KMap (VOther KMap))).
  reflexivity.
Defined.

(** The scenario of the specification: an [int8] field given ["200"]. *)
Lemma assign_overflow_leaves_destination_witness :
  err (assign testRuntime mockParser RFC3339 (TInt KInt8) (VInt 0) "200")
  = Failed ErrOverflowSet
  /\ dest (assign testRuntime mockParser RFC3339 (TInt KInt8) (VInt 0) "200")
     = VInt 0.
Proof.
  apply (assign_overflow_leaves_destination testRuntime mockParser RFC3339
           0 (TInt KInt8) (VInt 0) "200"); reflexivity.
Defined.

(** Two binds on the mocked transport: the second field overflows its
    [int8]; the first field is bound to a key whose request fails. *)
Lemma parse_stops_at_first_error_witness :
  (let whole :=
     parse testRuntime mockParser RFC3339 overflowStruct
       (zeroFields overflowStruct) in
   structErr whole = Failed ErrOverflowSet
   /\ fieldValues whole = [VString "hello"; VInt 0; VBool false]
   /\ structTrace whole = [EvGet "string"; EvGet "overflowint"]
   /\ err (Parse testRuntime mockParser RFC3339
             (TargetOf (TPtr (TStruct overflowStruct))
                (VPtr (VStruct (zeroFields overflowStruct)))))
      = Failed ErrOverflowSet)
  /\ (let whole :=
        parse testRuntime mockParser RFC3339 missingKeyStruct
          (zeroFields missingKeyStruct) in
      structErr whole = Failed (ConsulError "no responder found")
      /\ fieldValues whole = zeroFields missingKeyStruct
      /\ structTrace whole = [EvGet "string/hello"]
      /\ err (Parse testRuntime mockParser RFC3339
                (TargetOf (TPtr (TStruct missingKeyStruct))
                   (VPtr (VStruct (zeroFields missingKeyStruct)))))
         = Failed (ConsulError "no responder found")).
Proof.
  split.
  - exact (parse_stops_at_first_error testRuntime mockParser RFC3339
             [mkField "String" true "string" TString]
             "OverflowInt" "overflowint" (TInt KInt8)
             [mkField "Boolean" true "boolean" TBool]
             [VString ""] (VInt 0) [VBool false] ErrOverflowSet
             "128" Done [EvGet "overflowint"]
             eq_refl eq_refl (or_intror (conj eq_refl eq_refl))).
  - exact (parse_stops_at_first_error testRuntime mockParser RFC3339
             [] "String" "string/hello" TString (tl normalStruct)
             [] (VString "") (zeroFields (tl normalStruct))
             (ConsulError "no responder found")
             "" (Failed (ConsulError "no responder found"))
             [EvGet "string/hello"]
             eq_refl eq_refl (or_introl eq_refl)).
Defined.

Lemma Parse_checks_and_unwinds_pointer_witness :
  err (Parse testRuntime mockParser RFC3339
         (TargetOf (TStruct normalStruct) (VStruct (zeroFields normalStruct))))
  = Failed ErrNonPointerType
  /\ trace (Parse testRuntime mockParser RFC3339
              (TargetOf (TStruct normalStruct)
                 (VStruct (zeroFields normalStruct))))
     = []
  /\ getRecursivePointerVal (ptrTo 3 (TStruct normalStruct))
       (ptrChain 3 (VStruct (zeroFields normalStruct)))
     = Some (TStruct normalStruct, VStruct (zeroFields normalStruct)).
Proof.
  destruct (Parse_checks_and_unwinds_pointer testRuntime mockParser RFC3339
              (TargetOf (TStruct normalStruct)
                 (VStruct (zeroFields normalStruct)))
              2%nat (TStruct normalStruct)
              (VStruct (zeroFields normalStruct))) as [Hnp Hp].
  destruct Hnp as (He & Ht & _); [intros H; discriminate H|].
  destruct Hp as (Hg & _); [reflexivity|].
  exact (conj He (conj Ht Hg)).
Defined.

Lemma SetTimeLayout_rejects_empty_replaces_otherwise_witness :
  SetTimeLayout mockParser "" RFC3339 = (RFC3339, Failed ErrEmptyLayout)
  /\ SetTimeLayout mockParser RFC3339Nano RFC3339 = (RFC3339Nano, Done).
Proof.
  destruct (SetTimeLayout_rejects_empty_replaces_otherwise mockParser
              RFC3339Nano RFC3339) as (Hempty & _ & Hset).
  destruct Hset as (Hnew & _); [reflexivity|].
  exact (conj Hempty Hnew).
Defined.

(** The test "Multi Level Nil Pointer Target Case". *)
Lemma Parse_primitive_referent_noop_witness :
  Parse testRuntime mockParser RFC3339
    (TargetOf (ptrTo 3 TInterface) (ptrChain 3 VNilIface))
  = mkOutcome (ptrChain 3 VNilIface) Done [].
Proof.
  apply (Parse_primitive_referent_noop testRuntime mockParser RFC3339
           2%nat TInterface VNilIface).
  reflexivity.
Defined.

(** The test "Private field": the unexported [text] is bound to the key
    [string], and stays empty. *)
Lemma parse_skips_unsettable_field_witness :
  let whole :=
    parse testRuntime mockParser RFC3339 privateFieldStruct
      (zeroFields privateFieldStruct) in
  let without :=
    parse testRuntime mockParser RFC3339 (tl normalStruct)
      (zeroFields (tl normalStruct)) in
  structErr whole = structErr without
  /\ structTrace whole = structTrace without
  /\ fieldValues whole = insertAt 0 (VString "") (fieldValues without)
  /\ nth_error (fieldValues whole) 0 = Some (VString "").
Proof.
  exact (parse_skips_unsettable_field testRuntime mockParser RFC3339
           [] (mkField "text" false "string" TString) (tl normalStruct)
           [] (VString "") (zeroFields (tl normalStruct)) eq_refl eq_refl).
Defined.

Lemma timeLayout_is_unchecked_and_shared_witness :
  SetTimeLayout mockParser "not a layout" RFC3339 = ("not a layout", Done)
  /\ assign testRuntime consulParser
       (fst (SetTimeLayout mockParser "not a layout" RFC3339)) TTime
       (VTime (mkTime 0)) "2019-02-01T00:00:00Z"
     = mkOutcome (VTime (mkTime 0))
         (Failed (TimeParseError "not a layout" "2019-02-01T00:00:00Z")) [].
Proof.
  destruct (timeLayout_is_unchecked_and_shared mockParser consulParser
              testRuntime "not a layout" RFC3339 (VTime (mkTime 0))
              "2019-02-01T00:00:00Z" eq_refl eq_refl)
    as (Hset & _ & Htime & _).
  exact (conj Hset Htime).
Defined.

(** ** Widths and ranges *)

Lemma intBits_pos rt k : 0 < wordBits rt -> 0 < intBits rt k.
Proof. destruct k; simpl; lia. Qed.

Lemma uintBits_pos rt k : 0 < wordBits rt -> 0 < uintBits rt k.
Proof. destruct k; simpl; lia. Qed.

Lemma pow2_split bits : 0 < bits -> 2 ^ bits = 2 * 2 ^ (bits - 1).
Proof.
  intros H. replace bits with (Z.succ (bits - 1)) at 1 by lia.
  apply Z.pow_succ_r. lia.
Qed.

Lemma OverflowInt_false_iff bits x :
  OverflowInt bits x = false <-> - 2 ^ (bits - 1) <= x < 2 ^ (bits - 1).
Proof.
  unfold OverflowInt. rewrite negb_false_iff, andb_true_iff.
  rewrite Z.leb_le, Z.ltb_lt. tauto.
Qed.

Lemma OverflowUint_false_iff bits x :
  OverflowUint bits x = false <-> x < 2 ^ bits.
Proof. unfold OverflowUint. now rewrite negb_false_iff, Z.ltb_lt. Qed.

(** What [SetInt] stores is within the width of the destination. *)
Lemma wrapInt_in_range bits x :
  0 < bits -> OverflowInt bits (wrapInt bits x) = false.
Proof.
  intros Hb. apply OverflowInt_false_iff. unfold wrapInt.
  pose proof (pow2_split bits Hb) as Hsplit.
  assert (Hpos : 0 < 2 ^ (bits - 1)) by (apply Z.pow_pos_nonneg; lia).
  pose proof (Z.mod_pos_bound x (2 ^ bits) ltac:(lia)) as Hm.
  destruct (Z.leb_spec (2 ^ (bits - 1)) (x mod 2 ^ bits)); lia.
Qed.

(** A number that passed the overflow check is stored as it is. *)
Lemma wrapInt_id bits x :
  0 < bits -> OverflowInt bits x = false -> wrapInt bits x = x.
Proof.
  intros Hb Hx. apply OverflowInt_false_iff in Hx. unfold wrapInt.
  pose proof (pow2_split bits Hb) as Hsplit.
  assert (Hpos : 0 < 2 ^ (bits - 1)) by (apply Z.pow_pos_nonneg; lia).
  destruct (Z_lt_le_dec x 0) as [Hneg | Hnn].
  - rewrite <- (Z.mod_add x 1) by lia. rewrite Z.mod_small by lia.
    destruct (Z.leb_spec (2 ^ (bits - 1)) (x + 1 * 2 ^ bits)); lia.
  - rewrite Z.mod_small by lia.
    destruct (Z.leb_spec (2 ^ (bits - 1)) x); lia.
Qed.

Lemma wrapUint_in_range bits x :
  0 < bits ->
  0 <= wrapUint bits x /\ OverflowUint bits (wrapUint bits x) = false.
Proof.
  intros Hb. unfold wrapUint.
  assert (Hpos : 0 < 2 ^ bits) by (apply Z.pow_pos_nonneg; lia).
  pose proof (Z.mod_pos_bound x (2 ^ bits) Hpos) as Hm.
  split; [lia | apply OverflowUint_false_iff; lia].
Qed.

Lemma wrapUint_id bits x :
  0 <= x -> OverflowUint bits x = false -> wrapUint bits x = x.
Proof.
  intros Hx Ho. apply OverflowUint_false_iff in Ho.
  unfold wrapUint. apply Z.mod_small. lia.
Qed.




(** ** Destinations stay well typed *)

Section Typing.

Variable rt : Runtime.
Variable parser : Parser.
Variable timeLayout : string.
Hypothesis Hword : 0 < wordBits rt.

Local Abbreviation assign' := (assign rt parser timeLayout).
Local Abbreviation assignPointer' := (assignPointer rt parser timeLayout).
Local Abbreviation parse' := (parse rt parser timeLayout).

Lemma hasType_struct fs vs :
  hasType rt (TStruct fs) (VStruct vs) = fieldsHaveType rt fs vs.
Proof. reflexivity. Qed.

Lemma fieldsHaveType_cons f fs v vs :
  fieldsHaveType rt (f :: fs) (v :: vs)
  = hasType rt (fieldType f) v && fieldsHaveType rt fs vs.
Proof. reflexivity. Qed.

Lemma hasType_int_zero k : hasType rt (TInt k) (VInt 0) = true.
Proof.
  simpl. apply negb_true_iff, OverflowInt_false_iff.
  pose proof (intBits_pos rt k Hword).
  assert (0 < 2 ^ (intBits rt k - 1)) by (apply Z.pow_pos_nonneg; lia). lia.
Qed.

Lemma hasType_uint_zero k : hasType rt (TUint k) (VUint 0) = true.
Proof.
  simpl. apply negb_true_iff, OverflowUint_false_iff.
  pose proof (uintBits_pos rt k Hword). apply Z.pow_pos_nonneg; lia.
Qed.

Lemma zeroValue_struct fs : zeroValue (TStruct fs) = VStruct (zeroFields fs).
Proof. simpl. f_equal. apply map_ext. now intros []. Qed.

Lemma zeroFields_hasType fs :
  Forall (fun f => hasType rt (fieldType f) (zeroValue (fieldType f)) = true)
    fs ->
  fieldsHaveType rt fs (zeroFields fs) = true.
Proof.
  induction 1 as [|f fs Hf _ IH]; [reflexivity|].
  unfold zeroFields. simpl map. fold (zeroFields fs).
  rewrite fieldsHaveType_cons, Hf, IH. reflexivity.
Qed.

(** What [reflect.New] points at is well typed. *)
Lemma zeroValue_hasType t : hasType rt t (zeroValue t) = true.
Proof.
  induction t using GoType_fields_ind.
  - destruct t; try discriminate; try reflexivity.
    + apply hasType_int_zero.
    + apply hasType_uint_zero.
  - reflexivity.
  - reflexivity.
  - rewrite zeroValue_struct, hasType_struct. now apply zeroFields_hasType.
Qed.

Lemma parse_preserves_types fs :
  Forall
    (fun f =>
       forall cur value,
         hasType rt (fieldType f) cur = true ->
         hasType rt (fieldType f) (dest (assign' (fieldType f) cur value))
         = true)
    fs ->
  forall vs,
    fieldsHaveType rt fs vs = true ->
    fieldsHaveType rt fs (fieldValues (parse' fs vs)) = true.
Proof.
  induction 1 as [|[name settable key ft] fs Hf _ IH]; intros vs Hvs.
  - now rewrite parse_nil.
  - destruct vs as [|v vs]; [discriminate|].
    rewrite fieldsHaveType_cons in Hvs.
    apply andb_true_iff in Hvs. destruct Hvs as [Hv Hrest].
    simpl fieldType in Hf, Hv.
    destruct settable.
    + rewrite parse_settable.
      destruct (getValue parser key) as [[value st] tr].
      destruct st; cbn [fieldValues];
        try (rewrite fieldsHaveType_cons; simpl fieldType;
             now rewrite Hv, Hrest).
      destruct (err (assign' ft v value)); cbn [fieldValues];
        rewrite fieldsHaveType_cons; simpl fieldType;
        rewrite (Hf v value Hv); simpl; auto.
    + rewrite parse_skip. cbn [fieldValues].
      rewrite fieldsHaveType_cons. simpl fieldType. now rewrite Hv, IH.
Qed.

Lemma assign_preserves_type_both t :
  (forall cur value,
     hasType rt t cur = true ->
     hasType rt t (dest (assign' t cur value)) = true)
  /\ (forall cur value,
        hasType rt (TPtr t) cur = true ->
        hasType rt (TPtr t) (dest (assignPointer' t cur value)) = true).
Proof.
  induction t using GoType_fields_ind.
  - destruct t; try discriminate; split; intros cur value Hcur; simpl;
      destruct (isEmpty value); try exact Hcur.
    + destruct (ParseBool value); auto.
    + destruct (ParseBool value); auto.
    + destruct (ParseInt value) as [x|]; [|exact Hcur].
      destruct (OverflowInt (intBits rt k) x); [exact Hcur|].
      simpl. rewrite wrapInt_in_range; [reflexivity|].
      now apply intBits_pos.
    + destruct (ParseInt value) as [x|]; [|exact Hcur].
      destruct (OverflowInt (intBits rt k) x) eqn:Eo; [exact Hcur|].
      destruct (assignableInt64 k); [|exact Hcur].
      simpl. now rewrite Eo.
    + destruct (ParseUint value) as [x|]; [|exact Hcur].
      destruct (OverflowUint (uintBits rt k) x); [exact Hcur|].
      simpl.
      destruct (wrapUint_in_range (uintBits rt k) x (uintBits_pos rt k Hword))
        as [Hnn Hov].
      rewrite Hov. apply Z.leb_le in Hnn. now rewrite Hnn.
    + destruct (ParseUint value) as [x|] eqn:Ep; [|exact Hcur].
      destruct (OverflowUint (uintBits rt k) x) eqn:Eo; [exact Hcur|].
      destruct (assignableUint64 k); [|exact Hcur].
      simpl. rewrite Eo.
      apply ParseUint_nonneg, Z.leb_le in Ep. now rewrite Ep.
    + destruct (strconv_ParseFloat rt value) as [x|]; [|exact Hcur].
      destruct (OverflowFloat k x); auto.
    + destruct (strconv_ParseFloat rt value) as [x|]; [|exact Hcur].
      destruct (OverflowFloat k x); [exact Hcur|].
      destruct (assignableFloat64 k); auto.
    + reflexivity.
    + reflexivity.
    + reflexivity.
    + reflexivity.
    + destruct (time_Parse rt timeLayout value); auto.
    + destruct (time_Parse rt timeLayout value); auto.
  - split; intros cur value Hcur; exact Hcur.
  - destruct IHt as [_ IHp]. split.
    + intros cur value Hcur. apply (IHp cur value Hcur).
    + intros cur value Hcur. rewrite assignPointer_ptr. cbv zeta.
      destruct (err (assignPointer' t VNilPtr value)); cbn [dest];
        try exact Hcur.
      apply (IHp VNilPtr value). reflexivity.
  - assert (Hfields :
              forall vs,
                fieldsHaveType rt fs vs = true ->
                fieldsHaveType rt fs (fieldValues (parse' fs vs)) = true).
    { apply parse_preserves_types.
      eapply Forall_impl; [|exact H]. intros f [Hd _]. exact Hd. }
    split; intros cur value Hcur.
    + destruct cur; try discriminate Hcur.
      rewrite hasType_struct in Hcur.
      change (assign' (TStruct fs) (VStruct fields) value)
        with (assignNonPointer rt parser timeLayout (TStruct fs)
                (VStruct fields) value).
      rewrite assignNonPointer_struct. cbn [dest].
      rewrite hasType_struct. now apply Hfields.
    + change (assignPointer' (TStruct fs) cur value)
        with (let r := parse' fs (map (fun f => zeroValue (fieldType f)) fs) in
              match structErr r with
              | Done =>
                  mkOutcome (VPtr (VStruct (fieldValues r))) Done
                    (EvAlloc (TStruct fs) :: structTrace r)
              | e => mkOutcome cur e (EvAlloc (TStruct fs) :: structTrace r)
              end).
      cbv zeta.
      destruct (structErr (parse' fs _)); cbn [dest]; try exact Hcur.
      change (fieldsHaveType rt fs
                (fieldValues
                   (parse' fs (map (fun f => zeroValue (fieldType f)) fs)))
              = true).
      apply Hfields. apply zeroFields_hasType.
      apply Forall_forall. intros f _. apply zeroValue_hasType.
Qed.

End Typing.

(** ** The lookups of a binding *)

Lemma lookups_app a b : lookups (a ++ b) = lookups a ++ lookups b.
Proof. unfold lookups. apply flat_map_app. Qed.

Lemma keysOfFields_cons name settable key ft fs :
  keysOfFields (mkField name settable key ft :: fs)
  = (if settable then keyOf key ++ keysOf ft else []) ++ keysOfFields fs.
Proof. reflexivity. Qed.

Lemma getValue_lookups parser key :
  lookups (snd (getValue parser key)) = keyOf key.
Proof.
  unfold getValue, keyOf. destruct (isEmpty key); [reflexivity|].
  destruct (consulKV parser key); reflexivity.
Qed.

Section Keys.

Variable rt : Runtime.
Variable parser : Parser.
Variable timeLayout : string.
Hypothesis Hword : 0 < wordBits rt.

Local Abbreviation assign' := (assign rt parser timeLayout).
Local Abbreviation assignPointer' := (assignPointer rt parser timeLayout).
Local Abbreviation parse' := (parse rt parser timeLayout).

Lemma leaf_no_lookups t cur value :
  isLeaf t = true ->
  lookups (trace (assign' t cur value)) = []
  /\ lookups (trace (assignPointer' t cur value)) = [].
Proof.
  intros Hleaf.
  destruct t; try discriminate; simpl; destruct (isEmpty value);
    try (split; reflexivity).
  - destruct (ParseBool value); split; reflexivity.
  - destruct (ParseInt value) as [x|]; [|split; reflexivity].
    destruct (OverflowInt (intBits rt k) x); [split; reflexivity|].
    destruct (assignableInt64 k); split; reflexivity.
  - destruct (ParseUint value) as [x|]; [|split; reflexivity].
    destruct (OverflowUint (uintBits rt k) x); [split; reflexivity|].
    destruct (assignableUint64 k); split; reflexivity.
  - destruct (strconv_ParseFloat rt value) as [x|]; [|split; reflexivity].
    destruct (OverflowFloat k x); [split; reflexivity|].
    destruct (assignableFloat64 k); split; reflexivity.
  - destruct (time_Parse rt timeLayout value); split; reflexivity.
Qed.

Lemma parse_lookups fs :
  Forall
    (fun f =>
       forall cur value,
         hasType rt (fieldType f) cur = true ->
         lookupsWithin (keysOf (fieldType f))
           (err (assign' (fieldType f) cur value))
           (trace (assign' (fieldType f) cur value)))
    fs ->
  forall vs,
    fieldsHaveType rt fs vs = true ->
    lookupsWithin (keysOfFields fs) (structErr (parse' fs vs))
      (structTrace (parse' fs vs)).
Proof.
  unfold lookupsWithin.
  induction 1 as [|[name settable key ft] fs Hf _ IH]; intros vs Hvs.
  - rewrite parse_nil. split; [reflexivity | now exists []].
  - destruct vs as [|v vs]; [discriminate|].
    rewrite fieldsHaveType_cons in Hvs.
    apply andb_true_iff in Hvs. destruct Hvs as [Hv Hrest].
    simpl fieldType in Hf, Hv.
    destruct (IH vs Hrest) as [IHdone [restfs IHpre]].
    rewrite keysOfFields_cons.
    destruct settable.
    + rewrite parse_settable.
      pose proof (getValue_lookups parser key) as Hget.
      destruct (getValue parser key) as [[value st] tr]. simpl snd in Hget.
      destruct (Hf v value Hv) as [Hadone [resta Hapre]].
      destruct st; cbn [structErr structTrace].
      * destruct (err (assign' ft v value)) eqn:Ea;
          cbn [structErr structTrace]; rewrite !lookups_app, Hget.
        -- rewrite (Hadone eq_refl). split.
           ++ intros Hd. rewrite (IHdone Hd). now rewrite app_assoc.
           ++ exists restfs. rewrite IHpre at 1. now rewrite <- !app_assoc.
        -- split; [discriminate|].
           exists (resta ++ keysOfFields fs).
           rewrite Hapre at 1. now rewrite <- !app_assoc.
        -- split; [discriminate|].
           exists (resta ++ keysOfFields fs).
           rewrite Hapre at 1. now rewrite <- !app_assoc.
      * split; [discriminate|]. rewrite Hget.
        exists (keysOf ft ++ keysOfFields fs). now rewrite <- app_assoc.
      * split; [discriminate|]. rewrite Hget.
        exists (keysOf ft ++ keysOfFields fs). now rewrite <- app_assoc.
    + rewrite parse_skip. cbn [structErr structTrace]. simpl app.
      split; [exact IHdone | now exists restfs].
Qed.

Lemma assign_lookups_both t :
  forall value,
    (forall cur,
       hasType rt t cur = true ->
       lookupsWithin (keysOf t) (err (assign' t cur value))
         (trace (assign' t cur value)))
    /\ (forall cur,
          lookupsWithin (keysOf t) (err (assignPointer' t cur value))
            (trace (assignPointer' t cur value))).
Proof.
  unfold lookupsWithin.
  induction t using GoType_fields_ind; intros value.
  - assert (Hk : keysOf t = []) by (destruct t; try discriminate; reflexivity).
    rewrite Hk.
    split; intros cur; intros;
      destruct (leaf_no_lookups t cur value H) as [Hd Hp];
      rewrite ?Hd, ?Hp; (split; [reflexivity | now exists []]).
  - split; intros cur; intros; (split; [reflexivity | now exists []]).
  - destruct (IHt value) as [_ IHp].
    change (keysOf (TPtr t)) with (keysOf t). split.
    + intros cur _. apply (IHp cur).
    + intros cur. rewrite assignPointer_ptr. cbv zeta.
      destruct (IHp VNilPtr) as [Hdone [rest Hpre]].
      destruct (err (assignPointer' t VNilPtr value)) eqn:Ee;
        cbn [err trace]; (split; [| now exists rest]);
        intros Hd; try discriminate Hd. now apply Hdone.
  - assert (Hfields :
              forall vs,
                fieldsHaveType rt fs vs = true ->
                lookupsWithin (keysOfFields fs) (structErr (parse' fs vs))
                  (structTrace (parse' fs vs))).
    { apply parse_lookups.
      eapply Forall_impl; [|exact H]. intros f Hf cur v Hcur.
      now apply (Hf v). }
    change (keysOf (TStruct fs)) with (keysOfFields fs).
    split; intros cur.
    + intros Hcur. destruct cur; try discriminate Hcur.
      rewrite (hasType_struct rt) in Hcur.
      change (assign' (TStruct fs) (VStruct fields) value)
        with (assignNonPointer rt parser timeLayout (TStruct fs)
                (VStruct fields) value).
      rewrite assignNonPointer_struct. cbn [err trace]. now apply Hfields.
    + change (assignPointer' (TStruct fs) cur value)
        with (let r := parse' fs (zeroFields fs) in
              match structErr r with
              | Done =>
                  mkOutcome (VPtr (VStruct (fieldValues r))) Done
                    (EvAlloc (TStruct fs) :: structTrace r)
              | e => mkOutcome cur e (EvAlloc (TStruct fs) :: structTrace r)
              end).
      cbv zeta.
      assert (Hzero : fieldsHaveType rt fs (zeroFields fs) = true).
      { apply zeroFields_hasType. apply Forall_forall. intros f _.
        now apply zeroValue_hasType. }
      destruct (Hfields _ Hzero) as [Hdone [rest Hpre]].
      destruct (structErr (parse' fs (zeroFields fs))) eqn:Ee;
        cbn [err trace]; (split; [| now exists rest]);
        intros Hd; try discriminate Hd. now apply Hdone.
Qed.

End Keys.

(** No key of a type is empty. *)
Lemma keysOf_nonempty t : forall k, In k (keysOf t) -> isEmpty k = false.
Proof.
  induction t using GoType_fields_ind.
  - destruct t; try discriminate; intros ? [].
  - intros ? [].
  - exact IHt.
  - change (keysOf (TStruct fs)) with (keysOfFields fs).
    induction H as [|[name settable key ft] fs Hf _ IH]; intros k Hin.
    + destruct Hin.
    + rewrite keysOfFields_cons in Hin. apply in_app_or in Hin.
      destruct Hin as [Hin | Hin]; [|now apply IH].
      destruct settable; [|destruct Hin].
      apply in_app_or in Hin. destruct Hin as [Hin | Hin].
      * unfold keyOf in Hin. destruct (isEmpty key) eqn:Ek; [destruct Hin|].
        destruct Hin as [<- | []]. exact Ek.
      * now apply Hf.
Qed.

(** ** Properties of a whole binding *)

Lemma referent_facts rt t :
  forall v t' r,
    hasType rt t v = true ->
    getRecursivePointerVal t v = Some (t', r) ->
    hasType rt t' r = true
    /\ keysOf t' = keysOf t
    /\ (forall new,
          hasType rt t' new = true ->
          hasType rt t (storeReferent t v new) = true).
Proof.
  induction t; intros v t' r Hv Hget;
    try (injection Hget as <- <-; repeat split; auto).
  destruct v; try discriminate Hget.
  simpl in Hv, Hget.
  destruct (IHt v t' r Hv Hget) as (Hr & Hk & Hstore).
  repeat split; auto.
Qed.

(** X1.  On a platform whose [int] has at least one bit, [assign] keeps
    its destination well typed, however the call ends: integers stay
    within the width of their kind, structs keep their fields, pointers
    point at contents of the pointee type. *)
Theorem assign_keeps_destination_well_typed :
  forall rt parser timeLayout t cur value,
    0 < wordBits rt ->
    hasType rt t cur = true ->
    hasType rt t (dest (assign rt parser timeLayout t cur value)) = true.
Proof.
  intros rt parser timeLayout t cur value Hword Hcur.
  now apply (assign_preserves_type_both rt parser timeLayout Hword t).
Qed.

(** X2.  [Parse] keeps its target well typed, whatever target it is given
    and however the call ends. *)
Theorem Parse_keeps_target_well_typed :
  forall rt parser timeLayout t v,
    0 < wordBits rt ->
    hasType rt t v = true ->
    hasType rt t (dest (Parse rt parser timeLayout (TargetOf t v))) = true.
Proof.
  intros rt parser timeLayout t v Hword Hv. unfold Parse.
  destruct (negb (isPtr t)); [exact Hv|].
  destruct (getRecursivePointerVal t v) as [[t' r]|] eqn:Hget; [|exact Hv].
  destruct (referent_facts rt t v t' r Hv Hget) as (Hr & _ & Hstore).
  cbn [dest]. apply Hstore.
  now apply (assign_preserves_type_both rt parser timeLayout Hword t').
Qed.

(** X3.  The lookups of [assign] on a well-typed destination of type [t]
    are the keys of [t] in declaration order, each field's own key before
    the keys inside the field: all of them when the call returns no error,
    a prefix of them otherwise. *)
Theorem assign_lookups_follow_keys :
  forall rt parser timeLayout t cur value,
    0 < wordBits rt ->
    hasType rt t cur = true ->
    lookupsWithin (keysOf t)
      (err (assign rt parser timeLayout t cur value))
      (trace (assign rt parser timeLayout t cur value)).
Proof.
  intros rt parser timeLayout t cur value Hword Hcur.
  now apply (assign_lookups_both rt parser timeLayout Hword t value).
Qed.

(** X4.  [Parse] on a well-typed target never looks up the empty key, and
    never a key that is not the key of a field that can be set in the
    type of the target. *)
Theorem Parse_looks_up_only_keys_of_target :
  forall rt parser timeLayout t v key,
    0 < wordBits rt ->
    hasType rt t v = true ->
    In key (lookups (trace (Parse rt parser timeLayout (TargetOf t v)))) ->
    In key (keysOf t) /\ isEmpty key = false.
Proof.
  intros rt parser timeLayout t v key Hword Hv Hin.
  assert (Hkey : In key (keysOf t)).
  { unfold Parse in Hin.
    destruct (negb (isPtr t)); [destruct Hin|].
    destruct (getRecursivePointerVal t v) as [[t' r]|] eqn:Hget;
      [|destruct Hin].
    destruct (referent_facts rt t v t' r Hv Hget) as (Hr & Hk & _).
    cbn [trace] in Hin.
    destruct (assign_lookups_both rt parser timeLayout Hword t' "")
      as [Hd _].
    destruct (Hd r Hr) as [_ [rest Hpre]].
    rewrite <- Hk, Hpre. apply in_or_app. now left. }
  split; [exact Hkey | now apply (keysOf_nonempty t)].
Qed.

(** ** Numbers *)





Section Numbers.

Variable rt : Runtime.
Variable parser : Parser.
Variable timeLayout : string.

Local Abbreviation assign' := (assign rt parser timeLayout).
Local Abbreviation assignPointer' := (assignPointer rt parser timeLayout).



End Numbers.


(** X6.  A direct integer destination that was assigned a non-empty value
    without an error holds exactly the number [strconv] parsed, and that
    number fits the width of the destination: [SetInt] and [SetUint]
    never truncate. *)
Theorem assign_stores_the_parsed_integer :
  forall rt parser timeLayout cur value,
    0 < wordBits rt ->
    isEmpty value = false ->
    (forall k,
       err (assign rt parser timeLayout (TInt k) cur value) = Done ->
       exists x,
         ParseInt value = ok x
         /\ dest (assign rt parser timeLayout (TInt k) cur value) = VInt x
         /\ OverflowInt (intBits rt k) x = false)
    /\ (forall k,
          err (assign rt parser timeLayout (TUint k) cur value) = Done ->
          exists x,
            ParseUint value = ok x
            /\ dest (assign rt parser timeLayout (TUint k) cur value)
               = VUint x
            /\ OverflowUint (uintBits rt k) x = false).
Proof.
  intros rt parser timeLayout cur value Hword Hne.
  split; intros k; simpl; rewrite Hne.
  - destruct (ParseInt value) as [x|e]; [|discriminate].
    destruct (OverflowInt (intBits rt k) x) eqn:Eo; [discriminate|].
    intros _. exists x. cbn [dest].
    rewrite (wrapInt_id _ x (intBits_pos rt k Hword) Eo). auto.
  - destruct (ParseUint value) as [x|e] eqn:Ep; [|discriminate].
    destruct (OverflowUint (uintBits rt k) x) eqn:Eo; [discriminate|].
    intros _. exists x. cbn [dest].
    rewrite (wrapUint_id _ x (ParseUint_nonneg value x Ep) Eo). auto.
Qed.

(** ** Failures, pointers and structs *)

Section Atomicity.

Variable rt : Runtime.
Variable parser : Parser.
Variable timeLayout : string.

Local Abbreviation assign' := (assign rt parser timeLayout).
Local Abbreviation assignPointer' := (assignPointer rt parser timeLayout).
Local Abbreviation parse' := (parse rt parser timeLayout).

Lemma assignPointer_struct fs cur value :
  assignPointer' (TStruct fs) cur value
  = let r := parse' fs (zeroFields fs) in
    match structErr r with
    | Done =>
        mkOutcome (VPtr (VStruct (fieldValues r))) Done
          (EvAlloc (TStruct fs) :: structTrace r)
    | e => mkOutcome cur e (EvAlloc (TStruct fs) :: structTrace r)
    end.
Proof. reflexivity. Qed.

Lemma assignPointer_failure_untouched elem cur value :
  err (assignPointer' elem cur value) <> Done ->
  dest (assignPointer' elem cur value) = cur.
Proof.
  destruct elem.
  - simpl. destruct (isEmpty value); [reflexivity|].
    destruct (ParseBool value); [intros H; now elim H | reflexivity].
  - simpl. destruct (isEmpty value); [reflexivity|].
    destruct (ParseInt value); [|reflexivity].
    destruct (OverflowInt (intBits rt k) a); [reflexivity|].
    destruct (assignableInt64 k); [intros H; now elim H | reflexivity].
  - simpl. destruct (isEmpty value); [reflexivity|].
    destruct (ParseUint value); [|reflexivity].
    destruct (OverflowUint (uintBits rt k) a); [reflexivity|].
    destruct (assignableUint64 k); [intros H; now elim H | reflexivity].
  - simpl. destruct (isEmpty value); [reflexivity|].
    destruct (strconv_ParseFloat rt value); [|reflexivity].
    destruct (OverflowFloat k a); [reflexivity|].
    destruct (assignableFloat64 k); [intros H; now elim H | reflexivity].
  - simpl. destruct (isEmpty value); [reflexivity | intros H; now elim H].
  - simpl. destruct (isEmpty value); [reflexivity | intros H; now elim H].
  - simpl. destruct (isEmpty value); [reflexivity|].
    destruct (time_Parse rt timeLayout value);
      [intros H; now elim H | reflexivity].
  - rewrite assignPointer_struct. cbv zeta.
    destruct (structErr (parse' fields (zeroFields fields)));
      [intros H; now elim H | reflexivity | reflexivity].
  - rewrite assignPointer_ptr. cbv zeta.
    destruct (err (assignPointer' elem VNilPtr value));
      [intros H; now elim H | reflexivity | reflexivity].
  - reflexivity.
Qed.

Lemma assignNonPointer_failure_untouched t cur value :
  isStruct t = false ->
  err (assignNonPointer rt parser timeLayout t cur value) <> Done ->
  dest (assignNonPointer rt parser timeLayout t cur value) = cur.
Proof.
  intros Hns. destruct t; try discriminate Hns; simpl;
    try reflexivity; (destruct (isEmpty value); [reflexivity|]).
  - destruct (ParseBool value); [intros H; now elim H | reflexivity].
  - destruct (ParseInt value); [|reflexivity].
    destruct (OverflowInt (intBits rt k) a);
      [reflexivity | intros H; now elim H].
  - destruct (ParseUint value); [|reflexivity].
    destruct (OverflowUint (uintBits rt k) a);
      [reflexivity | intros H; now elim H].
  - destruct (strconv_ParseFloat rt value); [|reflexivity].
    destruct (OverflowFloat k a); [reflexivity | intros H; now elim H].
  - intros H; now elim H.
  - intros H; now elim H.
  - destruct (time_Parse rt timeLayout value);
      [intros H; now elim H | reflexivity].
Qed.

End Atomicity.

(** X7.  Unless the destination is a struct held directly, a call of
    [assign] that does not end without an error wrote nothing: the
    destination holds what it held before.  In particular a pointer field
    never points at a partly bound struct. *)
Theorem assign_failure_writes_nothing :
  forall rt parser timeLayout t cur value,
    isStruct t = false ->
    err (assign rt parser timeLayout t cur value) <> Done ->
    dest (assign rt parser timeLayout t cur value) = cur.
Proof.
  intros rt parser timeLayout t cur value Hns.
  destruct t; try discriminate Hns;
    try (now apply assignNonPointer_failure_untouched).
  apply assignPointer_failure_untouched.
Qed.

Lemma getRecursivePointerVal_nil n :
  forall k t,
    getRecursivePointerVal (ptrTo (S (n + k)) t) (ptrChain n VNilPtr) = None.
Proof. induction n as [|n IH]; intros k t; [reflexivity | apply IH]. Qed.

(** X8.  A target that is a nil pointer, or that reaches a nil pointer
    after [n] valid ones, is not reported as an invalid target: [Parse]
    returns [ErrUnhandledKind], with no lookup and the target as it
    was. *)
Theorem Parse_nil_pointer_is_unhandled_kind :
  forall rt parser timeLayout n k t,
    Parse rt parser timeLayout
      (TargetOf (ptrTo (S (n + k)) t) (ptrChain n VNilPtr))
    = mkOutcome (ptrChain n VNilPtr) (Failed ErrUnhandledKind) [].
Proof.
  intros rt parser timeLayout n k t. unfold Parse.
  change (isPtr (ptrTo (S (n + k)) t)) with true. cbv iota beta delta [negb].
  now rewrite getRecursivePointerVal_nil.
Qed.

Lemma ptrChain_inner n v : ptrChain n (ptrChain 1 v) = ptrChain (S n) v.
Proof.
  induction n as [|n IH]; [reflexivity|].
  change (VPtr (ptrChain n (ptrChain 1 v)) = VPtr (ptrChain (S n) v)).
  now rewrite IH.
Qed.

(** X9.  The number of pointers in front of the target does not matter:
    through [n + 1] valid pointers [Parse] ends as through one, with the
    same error and the same trace, and leaves the same referent under the
    [n] further pointers. *)
Theorem Parse_depth_does_not_matter :
  forall rt parser timeLayout n t v,
    isPtr t = false ->
    let deep :=
      Parse rt parser timeLayout
        (TargetOf (ptrTo (S n) t) (ptrChain (S n) v)) in
    let single := Parse rt parser timeLayout (TargetOf (TPtr t) (VPtr v)) in
    err deep = err single
    /\ trace deep = trace single
    /\ dest deep = ptrChain n (dest single).
Proof.
  intros rt parser timeLayout n t v Ht deep single.
  unfold deep, single.
  rewrite (Parse_chain rt parser timeLayout t v n Ht).
  change (TargetOf (TPtr t) (VPtr v))
    with (TargetOf (ptrTo 1 t) (ptrChain 1 v)).
  rewrite (Parse_chain rt parser timeLayout t v 0 Ht).
  repeat split. cbn [dest]. symmetry. apply ptrChain_inner.
Qed.

(** ** Fields *)

Section Fields.

Variable rt : Runtime.
Variable parser : Parser.
Variable timeLayout : string.

Local Abbreviation assign' := (assign rt parser timeLayout).
Local Abbreviation assignPointer' := (assignPointer rt parser timeLayout).
Local Abbreviation parse' := (parse rt parser timeLayout).

Lemma getValue_pair key s :
  isEmpty key = false ->
  consulKV parser key = GetPair s ->
  getValue parser key = (s, Done, [EvGet key]).
Proof. intros Hne Hget. unfold getValue. now rewrite Hne, Hget. Qed.

Lemma parse_done_prefix pre vpre fs vs :
  length pre = length vpre ->
  structErr (parse' (pre ++ fs) (vpre ++ vs)) = Done ->
  structErr (parse' pre vpre) = Done
  /\ structErr (parse' fs vs) = Done
  /\ fieldValues (parse' (pre ++ fs) (vpre ++ vs))
     = fieldValues (parse' pre vpre) ++ fieldValues (parse' fs vs)
  /\ structTrace (parse' (pre ++ fs) (vpre ++ vs))
     = structTrace (parse' pre vpre) ++ structTrace (parse' fs vs).
Proof.
  intros Hlen. rewrite (parse_app rt parser timeLayout pre vpre fs vs Hlen).
  cbv zeta.
  destruct (structErr (parse' pre vpre));
    cbn [structErr fieldValues structTrace];
    intros H; try discriminate H. auto.
Qed.

Lemma struct_ignores_value_pointer fs value value' :
  forall n cur,
    assignPointer' (ptrTo n (TStruct fs)) cur value
    = assignPointer' (ptrTo n (TStruct fs)) cur value'.
Proof.
  induction n as [|n IH]; intros cur; [reflexivity|].
  simpl ptrTo. rewrite !assignPointer_ptr. cbv zeta.
  now rewrite (IH VNilPtr).
Qed.

Lemma parse_binds_nothing fs :
  forallb bindsNothing fs = true ->
  forall vs, parse' fs vs = mkStructOutcome vs Done [].
Proof.
  induction fs as [|[name settable key ft] fs IH]; intros Hall vs.
  - apply parse_nil.
  - destruct vs as [|v vs]; [reflexivity|].
    simpl in Hall. apply andb_true_iff in Hall. destruct Hall as [Hf Hrest].
    destruct settable.
    + simpl in Hf. apply andb_true_iff in Hf. destruct Hf as [Hkey Hleaf].
      rewrite parse_settable. unfold getValue. rewrite Hkey.
      assert (Hnoop : assign' ft v "" = untouched v).
      { destruct ft; try discriminate Hleaf; try reflexivity.
        destruct ft; try discriminate Hleaf; reflexivity. }
      cbv zeta. rewrite Hnoop. cbn [err dest trace untouched].
      now rewrite (IH Hrest vs).
    + rewrite parse_skip. now rewrite (IH Hrest vs).
Qed.

End Fields.

(** X10.  After a bind of a struct that returned no error, a field that
    can be set and whose key the store holds contains what [assign] made
    of the store's value for that key and of the field's old content:
    the other fields have no part in it. *)
Theorem bound_field_holds_its_own_value :
  forall rt parser timeLayout pre name key ft post vpre v vpost s,
    length pre = length vpre ->
    isEmpty key = false ->
    consulKV parser key = GetPair s ->
    structErr (parse rt parser timeLayout
                 (pre ++ mkField name true key ft :: post)
                 (vpre ++ v :: vpost))
    = Done ->
    nth_error
      (fieldValues (parse rt parser timeLayout
                      (pre ++ mkField name true key ft :: post)
                      (vpre ++ v :: vpost)))
      (length pre)
    = Some (dest (assign rt parser timeLayout ft v s))
    /\ err (assign rt parser timeLayout ft v s) = Done.
Proof.
  intros rt parser timeLayout pre name key ft post vpre v vpost s
    Hlen Hkey Hget Hdone.
  destruct (parse_done_prefix rt parser timeLayout pre vpre _ _ Hlen Hdone)
    as (_ & Hrest & Hvals & _).
  rewrite Hvals. clear Hvals Hdone.
  rewrite parse_settable, (getValue_pair parser key s Hkey Hget) in Hrest |- *.
  cbv zeta in Hrest |- *.
  destruct (err (assign rt parser timeLayout ft v s));
    cbn [structErr] in Hrest; try discriminate Hrest.
  cbn [fieldValues]. split; [|reflexivity].
  rewrite <- (parse_length rt parser timeLayout pre vpre) in Hlen.
  rewrite Hlen. apply nth_error_middle.
Qed.

(** X11.  A struct destination, direct or behind any number of pointers,
    does not look at the value it is given: the binding of its fields is
    the same for any two values. *)
Theorem struct_destination_ignores_value :
  forall rt parser timeLayout n fs cur value value',
    assign rt parser timeLayout (ptrTo n (TStruct fs)) cur value
    = assign rt parser timeLayout (ptrTo n (TStruct fs)) cur value'.
Proof.
  intros rt parser timeLayout n fs cur value value'.
  destruct n as [|n]; [reflexivity|].
  rewrite !assign_ptrTo_S. apply struct_ignores_value_pointer.
Qed.

(** X12.  The key of a field is looked up whatever the type of the field,
    a struct included; when the request fails the bind returns the error
    of the request, after that one lookup, and the field, the inside of
    the field and the fields after it are as they were. *)
Theorem failed_request_stops_before_the_field :
  forall rt parser timeLayout pre name key ft post vpre v vpost e,
    length pre = length vpre ->
    structErr (parse rt parser timeLayout pre vpre) = Done ->
    isEmpty key = false ->
    consulKV parser key = GetErr e ->
    parse rt parser timeLayout (pre ++ mkField name true key ft :: post)
      (vpre ++ v :: vpost)
    = mkStructOutcome
        (fieldValues (parse rt parser timeLayout pre vpre) ++ v :: vpost)
        (Failed e)
        (structTrace (parse rt parser timeLayout pre vpre) ++ [EvGet key]).
Proof.
  intros rt parser timeLayout pre name key ft post vpre v vpost e
    Hlen Hpre Hkey Hget.
  rewrite (parse_app rt parser timeLayout pre vpre _ _ Hlen). cbv zeta.
  rewrite Hpre, parse_settable.
  now rewrite (getValue_request_error parser key e Hkey Hget).
Qed.

(** X13.  A struct in which every field either cannot be set, or has no
    key and a leaf type (direct or behind one pointer), is bound without
    any lookup or allocation, without an error, and stays as it was. *)
Theorem struct_without_keys_is_untouched :
  forall rt parser timeLayout fs vs,
    forallb bindsNothing fs = true ->
    parse rt parser timeLayout fs vs = mkStructOutcome vs Done [].
Proof.
  intros rt parser timeLayout fs vs Hall. now apply parse_binds_nothing.
Qed.

(** X14.  After any sequence of calls of [SetTimeLayout] the layout is
    the last non-empty string that was given, or the layout before the
    calls when every string was empty. *)
Theorem setLayouts_keeps_last_non_empty :
  forall parser layouts timeLayout,
    setLayouts parser layouts timeLayout = lastNonEmpty layouts timeLayout.
Proof.
  intros parser layouts. unfold setLayouts, lastNonEmpty.
  induction layouts as [|layout layouts IH]; intros timeLayout;
    [reflexivity|].
  simpl fold_left. rewrite IH. unfold SetTimeLayout.
  now destruct (isEmpty layout).
Qed.

(** X15.  For a leaf type and for a kind the parser does not handle, the
    direct branch and the pointer branch return the same errors: a value
    makes [assign] on [t] return the error [e] exactly when it makes
    [assign] on a pointer to [t] return [e]. *)
Theorem direct_and_pointer_errors_agree :
  forall rt parser timeLayout t cur curp value e,
    isStruct t = false ->
    isPtr t = false ->
    (err (assign rt parser timeLayout t cur value) = Failed e
     <-> err (assign rt parser timeLayout (TPtr t) curp value) = Failed e).
Proof.
  intros rt parser timeLayout t cur curp value e Hns Hnp.
  destruct t; try discriminate Hns; try discriminate Hnp; simpl;
    try (destruct (isEmpty value); [tauto|]); try tauto.
  - destruct (ParseBool value); tauto.
  - destruct (ParseInt value); [|tauto].
    destruct (OverflowInt (intBits rt k) a); [tauto|].
    destruct (assignableInt64 k); simpl; split; intros H; discriminate H.
  - destruct (ParseUint value); [|tauto].
    destruct (OverflowUint (uintBits rt k) a); [tauto|].
    destruct (assignableUint64 k); simpl; split; intros H; discriminate H.
  - destruct (strconv_ParseFloat rt value); [|tauto].
    destruct (OverflowFloat k a); [tauto|].
    destruct (assignableFloat64 k); simpl; split; intros H; discriminate H.
  - destruct (time_Parse rt timeLayout value); tauto.
Qed.

(** ** The layout and the other types *)

Section LayoutFrame.

Variable rt : Runtime.
Variable parser : Parser.
Variables layout1 layout2 : string.

Lemma parse_same_under_layouts fs :
  Forall
    (fun f =>
       forall cur value,
         assign rt parser layout1 (fieldType f) cur value
         = assign rt parser layout2 (fieldType f) cur value)
    fs ->
  forall vs, parse rt parser layout1 fs vs = parse rt parser layout2 fs vs.
Proof.
  induction 1 as [|[name settable key ft] fs Hf _ IH]; intros vs.
  - now rewrite !parse_nil.
  - destruct vs as [|v vs]; [reflexivity|].
    simpl fieldType in Hf.
    destruct settable.
    + rewrite !parse_settable.
      destruct (getValue parser key) as [[value st] tr].
      destruct st; [|reflexivity|reflexivity].
      cbv zeta. now rewrite Hf, IH.
    + rewrite !parse_skip. now rewrite IH.
Qed.

Lemma assign_same_under_layouts t :
  mentionsTime t = false ->
  (forall cur value,
     assign rt parser layout1 t cur value
     = assign rt parser layout2 t cur value)
  /\ (forall cur value,
        assignPointer rt parser layout1 t cur value
        = assignPointer rt parser layout2 t cur value).
Proof.
  induction t using GoType_fields_ind; intros Hmt.
  - destruct t; try discriminate; split; reflexivity.
  - split; reflexivity.
  - destruct (IHt Hmt) as [_ IHp]. split; intros cur value.
    + apply IHp.
    + rewrite !assignPointer_ptr. cbv zeta. now rewrite IHp.
  - assert (Hfields :
              Forall
                (fun f =>
                   forall cur value,
                     assign rt parser layout1 (fieldType f) cur value
                     = assign rt parser layout2 (fieldType f) cur value)
                fs).
    { simpl in Hmt. induction H as [|f fs Hf _ IH]; constructor.
      - simpl in Hmt. apply orb_false_iff in Hmt. now apply Hf.
      - simpl in Hmt. apply orb_false_iff in Hmt. now apply IH. }
    pose proof (parse_same_under_layouts fs Hfields) as Hparse.
    split; intros cur value.
    + destruct cur; try reflexivity.
      change (assignNonPointer rt parser layout1 (TStruct fs)
                (VStruct fields) value
              = assignNonPointer rt parser layout2 (TStruct fs)
                  (VStruct fields) value).
      now rewrite !assignNonPointer_struct, Hparse.
    + now rewrite !assignPointer_struct, Hparse.
Qed.

End LayoutFrame.

(** X16.  The layout matters to temporal destinations only: on a type in
    which [time.Time] does not occur, [assign] gives the same outcome
    under any two layouts. *)
Theorem layout_matters_to_time_only :
  forall rt parser layout1 layout2 t cur value,
    mentionsTime t = false ->
    assign rt parser layout1 t cur value
    = assign rt parser layout2 t cur value.
Proof.
  intros rt parser layout1 layout2 t cur value Hmt.
  now apply assign_same_under_layouts.
Qed.

(** X17.  For the pointee types whose fresh cell accepts the parsed value
    as it is ([string], [interface{}], [int64], [uint64], [float64],
    [bool], [time.Time]), a non-empty value that a direct destination
    accepts is accepted behind any number of pointers, and the innermost
    cell holds what the direct destination would hold. *)
Theorem exact_leaf_is_uniform_in_depth :
  forall rt parser timeLayout t value cur0 n cur,
    isExactLeaf t = true ->
    isEmpty value = false ->
    err (assign rt parser timeLayout t cur0 value) = Done ->
    err (assign rt parser timeLayout (ptrTo (S n) t) cur value) = Done
    /\ dest (assign rt parser timeLayout (ptrTo (S n) t) cur value)
       = ptrChain (S n) (dest (assign rt parser timeLayout t cur0 value)).
Proof.
  intros rt parser timeLayout t value cur0 n cur Hex Hne Hok.
  revert cur. induction n as [|n IH]; intros cur.
  - rewrite assign_ptrTo_S. simpl ptrTo.
    rewrite (assignPointer_exact_leaf rt parser timeLayout t value cur0
               Hex Hne Hok).
    now split.
  - rewrite assign_ptrTo_S. simpl ptrTo. rewrite assignPointer_ptr. cbv zeta.
    destruct (IH VNilPtr) as [Herr Hdest].
    rewrite assign_ptrTo_S in Herr, Hdest.
    rewrite Herr. cbn [err dest]. split; [reflexivity|]. now rewrite Hdest.
Qed.

(** ** Binding again *)

Section Idempotence.

Variable rt : Runtime.
Variable parser : Parser.
Variable timeLayout : string.

Local Abbreviation assign' := (assign rt parser timeLayout).
Local Abbreviation assignPointer' := (assignPointer rt parser timeLayout).
Local Abbreviation assignNonPointer' := (assignNonPointer rt parser timeLayout).
Local Abbreviation parse' := (parse rt parser timeLayout).

Lemma keepsOrStores_idempotent f :
  keepsOrStores f -> forall cur, f (dest (f cur)) = f cur.
Proof.
  intros (st & tr & [Hkeep | [d Hstore]]) cur.
  - now rewrite !Hkeep.
  - now rewrite !Hstore.
Qed.

Ltac keeps := eexists; eexists; left; intros; reflexivity.
Ltac stores := eexists; eexists; right; eexists; intros; reflexivity.

Lemma assignPointer_keepsOrStores elem value :
  keepsOrStores (fun cur => assignPointer' elem cur value).
Proof.
  destruct elem.
  - simpl. destruct (isEmpty value); [keeps|].
    destruct (ParseBool value); [stores | keeps].
  - simpl. destruct (isEmpty value); [keeps|].
    destruct (ParseInt value); [|keeps].
    destruct (OverflowInt (intBits rt k) a); [keeps|].
    destruct (assignableInt64 k); [stores | keeps].
  - simpl. destruct (isEmpty value); [keeps|].
    destruct (ParseUint value); [|keeps].
    destruct (OverflowUint (uintBits rt k) a); [keeps|].
    destruct (assignableUint64 k); [stores | keeps].
  - simpl. destruct (isEmpty value); [keeps|].
    destruct (strconv_ParseFloat rt value); [|keeps].
    destruct (OverflowFloat k a); [keeps|].
    destruct (assignableFloat64 k); [stores | keeps].
  - simpl. destruct (isEmpty value); [keeps | stores].
  - simpl. destruct (isEmpty value); [keeps | stores].
  - simpl. destruct (isEmpty value); [keeps|].
    destruct (time_Parse rt timeLayout value); [stores | keeps].
  - destruct (structErr (parse' fields (zeroFields fields))) eqn:E;
      [ exists Done | exists (Failed e) | exists (Panicked p) ];
      eexists; [right; eexists | left | left];
      intros cur; rewrite assignPointer_struct; cbv zeta; rewrite E;
      reflexivity.
  - destruct (err (assignPointer' elem VNilPtr value)) eqn:E;
      [ exists Done | exists (Failed e) | exists (Panicked p) ];
      eexists; [right; eexists | left | left];
      intros cur; rewrite assignPointer_ptr; cbv zeta; rewrite E;
      reflexivity.
  - keeps.
Qed.

Lemma assignNonPointer_keepsOrStores t value :
  isStruct t = false ->
  keepsOrStores (fun cur => assignNonPointer' t cur value).
Proof.
  intros Hns. destruct t; try discriminate Hns; simpl; try keeps;
    (destruct (isEmpty value); [keeps|]).
  - destruct (ParseBool value); [stores | keeps].
  - destruct (ParseInt value); [|keeps].
    destruct (OverflowInt (intBits rt k) a); [keeps | stores].
  - destruct (ParseUint value); [|keeps].
    destruct (OverflowUint (uintBits rt k) a); [keeps | stores].
  - destruct (strconv_ParseFloat rt value); [|keeps].
    destruct (OverflowFloat k a); [keeps | stores].
  - stores.
  - stores.
  - destruct (time_Parse rt timeLayout value); [stores | keeps].
Qed.

Lemma parse_again fs :
  Forall
    (fun f =>
       forall cur value,
         assign' (fieldType f) (dest (assign' (fieldType f) cur value)) value
         = assign' (fieldType f) cur value)
    fs ->
  forall vs, parse' fs (fieldValues (parse' fs vs)) = parse' fs vs.
Proof.
  induction 1 as [|[name settable key ft] fs Hf _ IH]; intros vs.
  - now rewrite !parse_nil.
  - destruct vs as [|v vs]; [reflexivity|].
    simpl fieldType in Hf.
    destruct settable.
    + rewrite (parse_settable rt parser timeLayout name key ft fs v vs).
      destruct (getValue parser key) as [[value st] tr] eqn:Eg;
        destruct st; cbv zeta.
      * destruct (err (assign' ft v value)) eqn:Ea; cbn [fieldValues];
          rewrite parse_settable, Eg; cbv zeta; rewrite Hf, Ea;
          now rewrite ?IH.
      * cbn [fieldValues]. now rewrite parse_settable, Eg.
      * cbn [fieldValues]. now rewrite parse_settable, Eg.
    + rewrite !parse_skip. cbn [fieldValues]. rewrite parse_skip.
      now rewrite IH.
Qed.

Lemma assign_again t :
  forall cur value,
    assign' t (dest (assign' t cur value)) value = assign' t cur value.
Proof.
  induction t using GoType_fields_ind; intros cur value.
  - assert (Hnp : assign' t = assignNonPointer' t)
      by (destruct t; try discriminate; reflexivity).
    rewrite Hnp.
    apply (keepsOrStores_idempotent
             (fun c => assignNonPointer' t c value)).
    apply assignNonPointer_keepsOrStores.
    destruct t; try discriminate; reflexivity.
  - reflexivity.
  - apply (keepsOrStores_idempotent (fun c => assignPointer' t c value)).
    apply assignPointer_keepsOrStores.
  - destruct cur; try reflexivity.
    change (assign' (TStruct fs)) with (assignNonPointer' (TStruct fs)).
    rewrite !assignNonPointer_struct. cbn [dest].
    rewrite assignNonPointer_struct. now rewrite (parse_again fs H).
Qed.

End Idempotence.

Lemma storeReferent_again t :
  forall v t' r new,
    getRecursivePointerVal t v = Some (t', r) ->
    getRecursivePointerVal t (storeReferent t v new) = Some (t', new)
    /\ forall new', storeReferent t (storeReferent t v new) new'
                    = storeReferent t v new'.
Proof.
  induction t; intros v t' r new Hget;
    try (injection Hget as <- _; split; reflexivity).
  destruct v; try discriminate Hget. simpl in Hget |- *.
  destruct (IHt v t' r new Hget) as [Hg Hs].
  split; [exact Hg|]. intros new'. now rewrite Hs.
Qed.

(** X18.  Binding is idempotent: as long as the store gives the same
    answers, [assign] on the content its first call left ends as the
    first call did, with the same content, error and trace. *)
Theorem assign_twice_is_assign_once :
  forall rt parser timeLayout t cur value,
    assign rt parser timeLayout t
      (dest (assign rt parser timeLayout t cur value)) value
    = assign rt parser timeLayout t cur value.
Proof. intros. apply assign_again. Qed.

(** X19.  [Parse] is idempotent: called again on the target its first
    call left, with the store giving the same answers, it returns the same
    error after the same lookups and leaves the target as the first call
    left it. *)
Theorem Parse_twice_is_Parse_once :
  forall rt parser timeLayout t v,
    Parse rt parser timeLayout
      (TargetOf t (dest (Parse rt parser timeLayout (TargetOf t v))))
    = Parse rt parser timeLayout (TargetOf t v).
Proof.
  intros rt parser timeLayout t v. unfold Parse.
  destruct (negb (isPtr t)); [reflexivity|].
  destruct (getRecursivePointerVal t v) as [[t' r]|] eqn:Hget; cbn [dest].
  - destruct (storeReferent_again t v t' r
                (dest (assign rt parser timeLayout t' r "")) Hget)
      as [Hg Hs].
    rewrite Hg, Hs. now rewrite assign_again.
  - now rewrite Hget.
Qed.

(** ** Instances of the further properties *)

Lemma assign_keeps_destination_well_typed_witness :
  hasType testRuntime (TStruct normalStruct)
    (dest (assign testRuntime mockParser RFC3339 (TStruct normalStruct)
             (VStruct (zeroFields normalStruct)) ""))
  = true.
Proof.
  apply (assign_keeps_destination_well_typed testRuntime mockParser RFC3339
           (TStruct normalStruct) (VStruct (zeroFields normalStruct)) "");
    reflexivity.
Defined.

Lemma Parse_keeps_target_well_typed_witness :
  hasType testRuntime (ptrTo 2 (TStruct overflowStruct))
    (dest (Parse testRuntime mockParser RFC3339
             (TargetOf (ptrTo 2 (TStruct overflowStruct))
                (ptrChain 2 (VStruct (zeroFields overflowStruct))))))
  = true.
Proof.
  apply (Parse_keeps_target_well_typed testRuntime mockParser RFC3339
           (ptrTo 2 (TStruct overflowStruct))
           (ptrChain 2 (VStruct (zeroFields overflowStruct))));
    reflexivity.
Defined.

Lemma assign_lookups_follow_keys_witness :
  lookupsWithin
    ["string"; "integer"; "float"; "unsignedinteger"; "boolean"; "string"]
    (err (assign testRuntime mockParser RFC3339 (TStruct normalStruct)
            (VStruct (zeroFields normalStruct)) ""))
    (trace (assign testRuntime mockParser RFC3339 (TStruct normalStruct)
              (VStruct (zeroFields normalStruct)) "")).
Proof.
  exact (assign_lookups_follow_keys testRuntime mockParser RFC3339
           (TStruct normalStruct) (VStruct (zeroFields normalStruct)) ""
           eq_refl eq_refl).
Defined.

Lemma Parse_looks_up_only_keys_of_target_witness :
  In "overflowint" (keysOf (TPtr (TStruct overflowStruct)))
  /\ isEmpty "overflowint" = false.
Proof.
  apply (Parse_looks_up_only_keys_of_target testRuntime mockParser RFC3339
           (TPtr (TStruct overflowStruct))
           (VPtr (VStruct (zeroFields overflowStruct))) "overflowint").
  - reflexivity.
  - reflexivity.
  - vm_compute. right. left. reflexivity.
Defined.


Lemma assign_stores_the_parsed_integer_witness :
  exists x,
    ParseInt "-10" = ok x
    /\ dest (assign testRuntime mockParser RFC3339 (TInt KInt16) (VInt 0)
               "-10")
       = VInt x
    /\ OverflowInt (intBits testRuntime KInt16) x = false.
Proof.
  apply (proj1 (assign_stores_the_parsed_integer testRuntime mockParser
                  RFC3339 (VInt 0) "-10" eq_refl eq_refl)).
  reflexivity.
Defined.

Lemma assign_failure_writes_nothing_witness :
  dest (assign testRuntime mockParser RFC3339 (TPtr (TStruct overflowStruct))
          VNilPtr "")
  = VNilPtr.
Proof.
  apply (assign_failure_writes_nothing testRuntime mockParser RFC3339
           (TPtr (TStruct overflowStruct)) VNilPtr "").
  - reflexivity.
  - vm_compute. intros H. discriminate H.
Defined.

Lemma Parse_depth_does_not_matter_witness :
  let deep :=
    Parse testRuntime mockParser RFC3339
      (TargetOf (ptrTo 3 (TStruct normalStruct))
         (ptrChain 3 (VStruct (zeroFields normalStruct)))) in
  let single :=
    Parse testRuntime mockParser RFC3339
      (TargetOf (TPtr (TStruct normalStruct))
         (VPtr (VStruct (zeroFields normalStruct)))) in
  err deep = err single
  /\ trace deep = trace single
  /\ dest deep = ptrChain 2 (dest single).
Proof.
  apply (Parse_depth_does_not_matter testRuntime mockParser RFC3339 2
           (TStruct normalStruct) (VStruct (zeroFields normalStruct))).
  reflexivity.
Defined.

Lemma bound_field_holds_its_own_value_witness :
  nth_error
    (fieldValues (parse testRuntime mockParser RFC3339 normalStruct
                    (zeroFields normalStruct)))
    1
  = Some (VInt (-10))
  /\ err (assign testRuntime mockParser RFC3339 (TInt KInt64) (VInt 0) "-10")
     = Done.
Proof.
  exact (bound_field_holds_its_own_value testRuntime mockParser RFC3339
           [mkField "String" true "string" TString]
           "Integer" "integer" (TInt KInt64) (skipn 2 normalStruct)
           [VString ""] (VInt 0) (zeroFields (skipn 2 normalStruct)) "-10"
           eq_refl eq_refl eq_refl eq_refl).
Defined.

Lemma failed_request_stops_before_the_field_witness :
  parse testRuntime mockParser RFC3339
    [ mkField "String" true "string" TString;
      mkField "Inner" true "string/hello" (TStruct normalStruct);
      mkField "Boolean" true "boolean" TBool ]
    [ VString ""; VStruct (zeroFields normalStruct); VBool false ]
  = mkStructOutcome
      [ VString "hello"; VStruct (zeroFields normalStruct); VBool false ]
      (Failed (ConsulError "no responder found"))
      [EvGet "string"; EvGet "string/hello"].
Proof.
  exact (failed_request_stops_before_the_field testRuntime mockParser RFC3339
           [mkField "String" true "string" TString]
           "Inner" "string/hello" (TStruct normalStruct)
           [mkField "Boolean" true "boolean" TBool]
           [VString ""] (VStruct (zeroFields normalStruct)) [VBool false]
           (ConsulError "no responder found")
           eq_refl eq_refl eq_refl eq_refl).
Defined.

Lemma struct_without_keys_is_untouched_witness :
  parse testRuntime mockParser RFC3339 unkeyedStruct
    [VString "kept"; VInt 7; VNilPtr]
  = mkStructOutcome [VString "kept"; VInt 7; VNilPtr] Done [].
Proof.
  apply (struct_without_keys_is_untouched testRuntime mockParser RFC3339
           unkeyedStruct [VString "kept"; VInt 7; VNilPtr]).
  reflexivity.
Defined.

Lemma direct_and_pointer_errors_agree_witness :
  err (assign testRuntime mockParser RFC3339 (TInt KInt8) (VInt 0) "200")
  = Failed ErrOverflowSet
  <-> err (assign testRuntime mockParser RFC3339 (TPtr (TInt KInt8)) VNilPtr
             "200")
      = Failed ErrOverflowSet.
Proof.
  apply (direct_and_pointer_errors_agree testRuntime mockParser RFC3339
           (TInt KInt8) (VInt 0) VNilPtr "200" ErrOverflowSet);
    reflexivity.
Defined.

Lemma layout_matters_to_time_only_witness :
  assign testRuntime mockParser RFC3339 (TStruct normalStruct)
    (VStruct (zeroFields normalStruct)) ""
  = assign testRuntime mockParser RFC3339Nano (TStruct normalStruct)
      (VStruct (zeroFields normalStruct)) "".
Proof.
  apply (layout_matters_to_time_only testRuntime mockParser RFC3339
           RFC3339Nano (TStruct normalStruct)
           (VStruct (zeroFields normalStruct)) "").
  reflexivity.
Defined.

(** The tests "1-Level Pointer in field struct" and "2 or More Level
    Pointer in field struct": [**int64] and [***int64] given ["-10"]. *)
Lemma exact_leaf_is_uniform_in_depth_witness :
  err (assign testRuntime mockParser RFC3339 (ptrTo 3 (TInt KInt64)) VNilPtr
         "-10")
  = Done
  /\ dest (assign testRuntime mockParser RFC3339 (ptrTo 3 (TInt KInt64))
             VNilPtr "-10")
     = ptrChain 3 (VInt (-10)).
Proof.
  exact (exact_leaf_is_uniform_in_depth testRuntime mockParser RFC3339
           (TInt KInt64) "-10" (VInt 0) 2 VNilPtr eq_refl eq_refl eq_refl).
Defined.
